(** * Morphological snakes of rivuletpy (rivuletpy/soma.py)

    A shallow embedding of the soma-detection module: the SI/IS operators
    with their shared scratch buffer, the alternating curvature operator,
    the morphological Chan-Vese evolver [MorphACWE], the geodesic evolver
    [MorphGAC], the automatic-convergence loop and the [soma_detect] driver.

    Numbers.  numpy float64 values are modelled by [flt]: exact rationals
    extended with the IEEE non-finite values (+inf, -inf, NaN) and their
    IEEE propagation and comparison rules.  Rounding of finite values is not
    modelled.  Arrays are materialised as nested lists ([tensor]) together
    with their shape, as numpy stores them; indices are row-major.

    Effects.  Python exceptions, the module-level mutable state (the [_aux]
    scratch buffer and the [curvop] cycle) and output (printing and file
    writes) are threaded through a state/exception/output monad [M]. *)

From Stdlib Require Import QArith Qabs Qminmax Qround ZArith String List Bool Lia.
Import ListNotations.

Open Scope Q_scope.

(* ================================================================== *)
(** ** Extended floats *)

Inductive flt : Type :=
| Fin (q : Q)
| PInf
| NInf
| NaN.

Definition qlt (a b : Q) : bool := negb (Qle_bool b a).

Definition flt_lt (a b : flt) : bool :=
  match a, b with
  | Fin x, Fin y => qlt x y
  | Fin _, PInf | NInf, Fin _ | NInf, PInf => true
  | _, _ => false
  end.

Definition flt_gt (a b : flt) : bool := flt_lt b a.

Definition flt_neg (a : flt) : flt :=
  match a with Fin x => Fin (- x) | PInf => NInf | NInf => PInf | NaN => NaN end.

Definition flt_add (a b : flt) : flt :=
  match a, b with
  | NaN, _ | _, NaN => NaN
  | Fin x, Fin y => Fin (x + y)
  | PInf, NInf | NInf, PInf => NaN
  | PInf, _ | _, PInf => PInf
  | NInf, _ | _, NInf => NInf
  end.

Definition flt_sub (a b : flt) : flt := flt_add a (flt_neg b).

(** Sign of a value: 1, -1, or 0 (NaN gets 0 and is handled apart). *)
Definition qsign (x : Q) : Z :=
  if qlt 0 x then 1%Z else if qlt x 0 then (-1)%Z else 0%Z.

Definition inf_of_sign (s : Z) : flt :=
  match s with Z.pos _ => PInf | Z.neg _ => NInf | Z0 => NaN end.

Definition flt_sign (a : flt) : Z :=
  match a with Fin x => qsign x | PInf => 1%Z | NInf => (-1)%Z | NaN => 0%Z end.

Definition flt_mul (a b : flt) : flt :=
  match a, b with
  | NaN, _ | _, NaN => NaN
  | Fin x, Fin y => Fin (x * y)
  | _, _ => inf_of_sign (flt_sign a * flt_sign b)
  end.

(** IEEE division: [x/0] is [+-inf] for [x <> 0] and NaN for [0/0]. *)
Definition flt_div (a b : flt) : flt :=
  match a, b with
  | NaN, _ | _, NaN => NaN
  | Fin x, Fin y =>
      if Qeq_bool y 0 then inf_of_sign (qsign x) else Fin (x / y)
  | Fin _, _ => Fin 0
  | _, Fin y =>
      if Qeq_bool y 0 then a else inf_of_sign (flt_sign a * qsign y)
  | _, _ => NaN
  end.

Definition flt_abs (a : flt) : flt :=
  match a with Fin x => Fin (Qabs x) | PInf | NInf => PInf | NaN => NaN end.

Definition flt_finite (a : flt) : bool :=
  match a with Fin _ => true | _ => false end.

(* ================================================================== *)
(** ** Dense arrays *)

#[warnings="-register-all"]
Inductive tensor : Type :=
| TLeaf (q : Q)
| TNode (ts : list tensor).

Fixpoint tget (x : list nat) (t : tensor) : Q :=
  match x, t with
  | [], TLeaf q => q
  | i :: x', TNode ts => tget x' (nth i ts (TLeaf 0))
  | _, _ => 0
  end.

Fixpoint tgen (sh : list nat) (f : list nat -> Q) : tensor :=
  match sh with
  | [] => TLeaf (f [])
  | n :: sh' => TNode (map (fun i => tgen sh' (fun x => f (i :: x))) (seq 0 n))
  end.

(** An ndarray: its shape and its materialised values. *)
Record ndarray : Type := mk_nd { shape : list nat; vals : tensor }.

Definition at_ (a : ndarray) (x : list nat) : Q := tget x (vals a).

Definition tabulate (sh : list nat) (f : list nat -> Q) : ndarray :=
  mk_nd sh (tgen sh f).

Definition zeros (sh : list nat) : ndarray := tabulate sh (fun _ => 0).

(** [np.copy] *)
Definition copy (a : ndarray) : ndarray := tabulate (shape a) (at_ a).

Definition ndim (a : ndarray) : nat := length (shape a).

(** All indices of a shape, in C (row-major) order. *)
Fixpoint indices (sh : list nat) : list (list nat) :=
  match sh with
  | [] => [[]]
  | n :: sh' => flat_map (fun i => map (cons i) (indices sh')) (seq 0 n)
  end.

Fixpoint inb (sh x : list nat) : bool :=
  match sh, x with
  | [], [] => true
  | n :: sh', i :: x' => Nat.ltb i n && inb sh' x'
  | _, _ => false
  end.

Definition b2q (b : bool) : Q := if b then 1 else 0.

(** [a[mask] = v] *)
Definition masked_set (a : ndarray) (mask : list nat -> bool) (v : Q) : ndarray :=
  tabulate (shape a) (fun x => if mask x then v else at_ a x).

(** [data[mask].sum()] and [mask.sum()] *)
Definition masked_sum (a : ndarray) (mask : list nat -> bool) : Q :=
  fold_left (fun acc x => if mask x then acc + at_ a x else acc) (indices (shape a)) 0.

Definition count (sh : list nat) (mask : list nat -> bool) : Q :=
  fold_left (fun acc x => if mask x then acc + 1 else acc) (indices sh) 0.

Definition shape_eqb (a b : list nat) : bool :=
  if list_eq_dec Nat.eq_dec a b then true else false.

Definition binary (a : ndarray) : Prop :=
  forall x, inb (shape a) x = true -> at_ a x = 0 \/ at_ a x = 1.

(* ================================================================== *)
(** ** Exceptions, output and the state/exception/output monad *)

Inductive exn : Type :=
| ValueError (msg : string)
| IndexError (msg : string)
| RuntimeError (msg : string)
| TypeError (msg : string)
| ZeroDivisionError.

Inductive effect : Type :=
| Print (what : string)
| WriteTiff3d (path : string) (img : ndarray).

Inductive outcome (A : Type) : Type :=
| Ok (a : A)
| Raise (e : exn).
Arguments Ok {A} a.
Arguments Raise {A} e.

(** A computation on state [S]: the final state (kept also when an exception
    escapes, as Python keeps its mutations), the output emitted, and the
    outcome. *)
Definition M (S A : Type) : Type := S -> S * list effect * outcome A.

Definition ret {S A} (a : A) : M S A := fun s => (s, [], Ok a).

Definition bind {S A B} (m : M S A) (k : A -> M S B) : M S B :=
  fun s =>
    match m s with
    | (s1, o1, Ok a) => let '(s2, o2, r) := k a s1 in (s2, o1 ++ o2, r)
    | (s1, o1, Raise e) => (s1, o1, Raise e)
    end.

Definition raise {S A} (e : exn) : M S A := fun s => (s, [], Raise e).
Definition get {S} : M S S := fun s => (s, [], Ok s).
Definition put {S} (s : S) : M S unit := fun _ => (s, [], Ok tt).
Definition tell {S} (e : effect) : M S unit := fun s => (s, [e], Ok tt).
Definition of_outcome {S A} (r : outcome A) : M S A := fun s => (s, [], r).

Notation "x <- m ;; k" := (bind m (fun x => k))
  (at level 61, m at next level, right associativity).
Notation "m ;;; k" := (bind m (fun _ => k))
  (at level 61, right associativity).

(** Running a computation on the first component of a pair state. *)
Definition on_fst {S T A} (m : M S A) : M (S * T) A :=
  fun st => let '(s, t) := st in
            let '(s', o, r) := m s in ((s', t), o, r).

(* ================================================================== *)
(** ** Structuring elements: [_P2] and [_P3] *)

(** A 3x3 kernel given by its rows. *)
Definition of_rows3 (rows : list (list Q)) : ndarray :=
  tabulate [3%nat; 3%nat]
    (fun p => match p with [i; j] => nth j (nth i rows []) 0 | _ => 0 end).

(** [_P2 = [np.eye(3), np.array([[0,1,0]]*3), np.flipud(np.eye(3)),
           np.rot90([[0,1,0]]*3)]] *)
Definition P2 : list ndarray :=
  [ of_rows3 [[1;0;0];[0;1;0];[0;0;1]];
    of_rows3 [[0;1;0];[0;1;0];[0;1;0]];
    of_rows3 [[0;0;1];[0;1;0];[1;0;0]];
    of_rows3 [[0;0;0];[1;1;1];[0;0;0]] ].

(** A 3x3x3 kernel that is 1 exactly where [sel] holds. *)
Definition kernel3 (sel : nat -> nat -> nat -> bool) : ndarray :=
  tabulate [3%nat; 3%nat; 3%nat]
    (fun p => match p with [a; b; c] => b2q (sel a b c) | _ => 0 end).

(** [_P3[k]] after the slice assignments of the source. *)
Definition P3 : list ndarray :=
  [ kernel3 (fun _ _ c => Nat.eqb c 1);                  (* [:,:,1] *)
    kernel3 (fun _ b _ => Nat.eqb b 1);                  (* [:,1,:] *)
    kernel3 (fun a _ _ => Nat.eqb a 1);                  (* [1,:,:] *)
    kernel3 (fun _ b c => Nat.eqb b c);                  (* [:,[0,1,2],[0,1,2]] *)
    kernel3 (fun _ b c => Nat.eqb (b + c) 2);            (* [:,[0,1,2],[2,1,0]] *)
    kernel3 (fun a _ c => Nat.eqb a c);                  (* [[0,1,2],:,[0,1,2]] *)
    kernel3 (fun a _ c => Nat.eqb (a + c) 2);            (* [[0,1,2],:,[2,1,0]] *)
    kernel3 (fun a b _ => Nat.eqb a b);                  (* [[0,1,2],[0,1,2],:] *)
    kernel3 (fun a b _ => Nat.eqb (a + b) 2) ].          (* [[0,1,2],[2,1,0],:] *)

(** The family selected by [np.ndim(u)] in [SI] and [IS]. *)
Definition family (r : nat) : option (list ndarray) :=
  match r with
  | 2%nat => Some P2
  | 3%nat => Some P3
  | _ => None
  end.

(* ================================================================== *)
(** ** scipy.ndimage binary erosion and dilation (border value 0) *)

Definition nonzero (q : Q) : bool := negb (Qeq_bool q 0).

(** The voxel [x + s * (p - c)] for a kernel position [p] with centre [c]
    (the centre of a side-3 kernel is 1), if it lies inside [sh]. *)
Fixpoint neighbour (sh x p : list nat) (s : Z) : option (list nat) :=
  match sh, x, p with
  | [], [], [] => Some []
  | n :: sh', i :: x', k :: p' =>
      let y := (Z.of_nat i + s * (Z.of_nat k - 1))%Z in
      if (0 <=? y)%Z && (y <? Z.of_nat n)%Z then
        match neighbour sh' x' p' s with
        | Some ys => Some (Z.to_nat y :: ys)
        | None => None
        end
      else None
  | _, _, _ => None
  end.

(** [binary_erosion(u, structure)] at voxel [x]: every voxel under the
    structuring element is nonzero; voxels outside the array count as 0. *)
Definition erosion (u st : ndarray) (x : list nat) : bool :=
  forallb (fun p =>
             if nonzero (at_ st p) then
               match neighbour (shape u) x p 1 with
               | Some y => nonzero (at_ u y)
               | None => false
               end
             else true)
          (indices (shape st)).

(** [binary_dilation(u, structure)] at voxel [x]: scipy reflects the
    structuring element, so the voxel [x - (p - c)] is read. *)
Definition dilation (u st : ndarray) (x : list nat) : bool :=
  existsb (fun p =>
             nonzero (at_ st p) &&
             match neighbour (shape u) x p (-1) with
             | Some y => nonzero (at_ u y)
             | None => false
             end)
          (indices (shape st)).

(* ================================================================== *)
(** ** The module-level state: [_aux] and the [curvop] cycle *)

Record morph : Type := mk_morph {
  m_cycle : bool;      (** [false]: the next [curvop] call runs [SIoIS] *)
  m_aux : ndarray      (** the scratch buffer [_aux] *)
}.

(** [_aux = np.zeros((0))] and a fresh [fcycle([SIoIS, ISoSI])]. *)
Definition morph0 : morph := mk_morph false (zeros [0%nat]).

Definition set_aux (b : ndarray) : M morph unit :=
  fun w => (mk_morph (m_cycle w) b, [], Ok tt).

(** [_aux[i] = layer] *)
Definition assign_layer (buf : ndarray) (i : nat) (layer : list nat -> Q) : ndarray :=
  tabulate (shape buf)
    (fun y => match y with
              | j :: x => if Nat.eqb j i then layer x else at_ buf y
              | [] => at_ buf y
              end).

(** [for i in range(len(P)): _aux[i] = op(u, P[i])], from index [i]. *)
Fixpoint fill_layers (op : ndarray -> ndarray -> list nat -> bool)
         (u : ndarray) (P : list ndarray) (i : nat) : M morph unit :=
  match P with
  | [] => ret tt
  | st :: P' =>
      w <- get ;;
      if Nat.ltb i (hd 0%nat (shape (m_aux w))) then
        set_aux (assign_layer (m_aux w) i (fun x => b2q (op u st x))) ;;;
        fill_layers op u P' (S i)
      else raise (IndexError "index out of bounds for axis 0")
  end.

(** [_aux.max(0)] and [_aux.min(0)]. *)
Definition reduce0 (op : Q -> Q -> Q) (buf : ndarray) : outcome ndarray :=
  match shape buf with
  | [] => Raise (ValueError "axis 0 is out of bounds for array of dimension 0")
  | 0%nat :: _ => Raise (ValueError "zero-size array to reduction operation which has no identity")
  | S n :: sh =>
      Ok (tabulate sh (fun x =>
            fold_left (fun acc j => op acc (at_ buf (j :: x))) (seq 1 n) (at_ buf (0%nat :: x))))
  end.

(** The common body of [SI] and [IS]. *)
Definition multi_op (op : ndarray -> ndarray -> list nat -> bool)
           (red : Q -> Q -> Q) (u : ndarray) : M morph ndarray :=
  match family (ndim u) with
  | None => raise (ValueError "u has an invalid number of dimensions (should be 2 or 3)")
  | Some P =>
      w <- get ;;
      (if shape_eqb (shape u) (tl (shape (m_aux w))) then ret tt
       else set_aux (zeros (length P :: shape u))) ;;;
      fill_layers op u P 0 ;;;
      w' <- get ;;
      of_outcome (reduce0 red (m_aux w'))
  end.

Definition SI (u : ndarray) : M morph ndarray := multi_op erosion Qmax u.
Definition IS (u : ndarray) : M morph ndarray := multi_op dilation Qmin u.

Definition SIoIS (u : ndarray) : M morph ndarray := v <- IS u ;; SI v.
Definition ISoSI (u : ndarray) : M morph ndarray := v <- SI u ;; IS v.

(** [curvop = fcycle([SIoIS, ISoSI])]: [next] advances the cycle before
    the selected operator runs. *)
Definition curvop (u : ndarray) : M morph ndarray :=
  fun w =>
    let f := if m_cycle w then ISoSI else SIoIS in
    f u (mk_morph (negb (m_cycle w)) (m_aux w)).

(** [for i in range(smoothing): res = curvop(res)] *)
Fixpoint smooth (n : nat) (res : ndarray) : M morph ndarray :=
  match n with
  | 0%nat => ret res
  | S n' => r <- curvop res ;; smooth n' r
  end.

(* ================================================================== *)
(** ** [np.gradient] (unit spacing, [edge_order=1]) *)

(** [x] with its [k]-th coordinate replaced by [v]. *)
Definition upd (x : list nat) (k v : nat) : list nat :=
  firstn k x ++ v :: skipn (S k) x.

(** Gradient along axis [k] at [x]: one-sided differences at both edges,
    central differences inside. *)
Definition gradient_axis (u : ndarray) (k : nat) (x : list nat) : Q :=
  let n := nth k (shape u) 0%nat in
  let i := nth k x 0%nat in
  if Nat.eqb i 0 then at_ u (upd x k 1) - at_ u x
  else if Nat.eqb i (n - 1) then at_ u x - at_ u (upd x k (n - 2))
  else (at_ u (upd x k (S i)) - at_ u (upd x k (i - 1))) / 2.

(** One array per axis; numpy raises when an axis has fewer than
    [edge_order + 1 = 2] elements. *)
Definition gradient (u : ndarray) : outcome (list ndarray) :=
  if existsb (fun n => Nat.ltb n 2) (shape u) then
    Raise (ValueError "Shape of array too small to calculate a numerical gradient, at least (edge_order + 1) elements are required.")
  else
    Ok (map (fun k => tabulate (shape u) (gradient_axis u k)) (seq 0 (ndim u))).

(** [np.abs(np.array(np.gradient(u))).sum(0)] at each voxel.  For a 1-D
    array [np.gradient] returns the array itself, so [.sum(0)] sums it
    whole into one scalar. *)
Definition abs_grad_sum (sh : list nat) (dres : list ndarray) : list nat -> Q :=
  if Nat.eqb (length sh) 1 then
    let t := fold_left (fun acc x => acc + Qabs (at_ (hd (zeros sh) dres) x)) (indices sh) 0 in
    fun _ => t
  else
    fun x => fold_left (fun acc g => acc + Qabs (at_ g x)) dres 0.

(* ================================================================== *)
(** ** [MorphACWE] *)

Record acwe : Type := mk_acwe {
  a_u : option ndarray;      (** [self._u] ([None] until set) *)
  a_smoothing : nat;
  a_lambda1 : Q;
  a_lambda2 : Q;
  a_data : ndarray
}.

(** [MorphACWE(data, smoothing, lambda1, lambda2)] *)
Definition acwe_init (data : ndarray) (smoothing : nat) (l1 l2 : Q) : acwe :=
  mk_acwe None smoothing l1 l2 data.

(** [set_levelset]: [np.double(u)], then 1 where [u > 0], 0 where [u <= 0]. *)
Definition levelset_of (u : ndarray) : ndarray :=
  let v := copy u in
  let v := masked_set v (fun x => qlt 0 (at_ u x)) 1 in
  masked_set v (fun x => Qle_bool (at_ u x) 0) 0.

Definition acwe_set_levelset (u : ndarray) (e : acwe) : acwe :=
  mk_acwe (Some (levelset_of u)) (a_smoothing e) (a_lambda1 e) (a_lambda2 e) (a_data e).

Definition acwe_with_u (e : acwe) (u : ndarray) : acwe :=
  mk_acwe (Some u) (a_smoothing e) (a_lambda1 e) (a_lambda2 e) (a_data e).

Definition sq (a : flt) : flt := flt_mul a a.

(** [c0] and [c1]: [data[mask].sum() / float(mask.sum())]. *)
Definition region_mean (data u : ndarray) (mask : Q -> bool) : flt :=
  flt_div (Fin (masked_sum data (fun x => mask (at_ u x))))
          (Fin (count (shape u) (fun x => mask (at_ u x)))).

Definition inside_q (v : Q) : bool := qlt 0 v.
Definition outside_q (v : Q) : bool := Qle_bool v 0.

(** [aux = abs_dres * (lambda1*(data - c1)**2 - lambda2*(data - c0)**2)] *)
Definition acwe_aux (l1 l2 : Q) (data : ndarray) (c0 c1 : flt)
           (abs_dres : list nat -> Q) (x : list nat) : flt :=
  flt_mul (Fin (abs_dres x))
    (flt_sub (flt_mul (Fin l1) (sq (flt_sub (Fin (at_ data x)) c1)))
             (flt_mul (Fin l2) (sq (flt_sub (Fin (at_ data x)) c0)))).

(** The image-attachment part of [step]: from [res = np.copy(u)] to
    [res[aux > 0] = 0]. *)
Definition acwe_attach (l1 l2 : Q) (data u : ndarray) : outcome ndarray :=
  let c0 := region_mean data u outside_q in
  let c1 := region_mean data u inside_q in
  match gradient u with
  | Raise e => Raise e
  | Ok dres =>
      let abs_dres := abs_grad_sum (shape u) dres in
      let aux := acwe_aux l1 l2 data c0 c1 abs_dres in
      let res := copy u in
      let res := masked_set res (fun x => flt_lt (aux x) (Fin 0)) 1 in
      let res := masked_set res (fun x => flt_gt (aux x) (Fin 0)) 0 in
      Ok res
  end.

(** [MorphACWE.step].  [data[outside]] raises [IndexError] when the boolean
    mask does not have the shape of [data]. *)
Definition acwe_step : M (morph * acwe) unit :=
  s <- get ;;
  let e := snd s in
  match a_u e with
  | None => raise (ValueError "the levelset function is not set (use set_levelset)")
  | Some u =>
      if negb (shape_eqb (shape (a_data e)) (shape u)) then
        raise (IndexError "boolean index did not match indexed array")
      else
        res <- of_outcome (acwe_attach (a_lambda1 e) (a_lambda2 e) (a_data e) u) ;;
        res <- on_fst (smooth (a_smoothing e) res) ;;
        s' <- get ;;
        put (fst s', acwe_with_u (snd s') res)
  end.

(** [MorphACWE.run] *)
Fixpoint acwe_run (n : nat) : M (morph * acwe) unit :=
  match n with
  | 0%nat => ret tt
  | S n' => acwe_step ;;; acwe_run n'
  end.

(* ================================================================== *)
(** ** [MorphACWE.autoconvg] *)

(** The loop is written once for any [step] and any way of reading the
    level set back; [acwe_autoconvg] instantiates it with [MorphACWE]. *)
Section AutoConvg.
Context {St : Type} (step : M St unit) (get_u : St -> option ndarray).

Definition iterations : nat := 200.

(** [sum(u[u>0])] *)
Definition foreground (u : ndarray) : Q :=
  fold_left (fun acc x => if qlt 0 (at_ u x) then acc + at_ u x else acc)
            (indices (shape u)) 0.

(** [np.sum(forward_diff_store[i-6:i-1])] *)
Definition slider (fd : nat -> Q) (i : nat) : Q :=
  fold_left (fun acc j => acc + fd j) (seq (i - 6)%nat 5%nat) 0.

(** [np.absolute(csd) < 20 | (np.absolute(csd) < (0.1*fn_i))]: [|] binds
    tighter than [<], so the bound is [20 | b] with [b] the inner test. *)
Definition stop_test (csd fn_i : Q) : bool :=
  qlt (Qabs csd)
      (inject_Z (Z.lor 20 (Z.b2z (qlt (Qabs csd) ((1#10) * fn_i))))).

Definition upd_fun (f : nat -> Q) (i : nat) (v : Q) : nat -> Q :=
  fun j => if Nat.eqb j i then v else f j.

(** Iterations [i .. i + k - 1] of [for i in range(iterations)].  The
    result is the number of iterations run (a ghost value; Python returns
    [None]). *)
Fixpoint autoconvg_loop (k i : nat) (fn fd : nat -> Q) : M St nat :=
  match k with
  | 0%nat => ret i
  | S k' =>
      step ;;;
      s <- get ;;
      match get_u s with
      | None => raise (TypeError "'NoneType' object is not subscriptable")
      | Some u =>
          let fn := upd_fun fn i (foreground u) in
          if Nat.ltb 0%nat i then
            let fd := upd_fun fd (i - 1)%nat (fn i - fn (i - 1)%nat) in
            if Nat.ltb 6%nat i then
              if stop_test (slider fd i) (fn i) then
                tell (Print "Perform the automatic converge") ;;; ret (S i)
              else autoconvg_loop k' (S i) fn fd
            else autoconvg_loop k' (S i) fn fd
          else autoconvg_loop k' (S i) fn fd
      end
  end.

Definition autoconvg : M St nat :=
  autoconvg_loop iterations 0 (fun _ => 0) (fun _ => 0).
End AutoConvg.

Definition acwe_autoconvg : M (morph * acwe) nat :=
  autoconvg acwe_step (fun s => a_u (snd s)).

(* ================================================================== *)
(** ** [MorphGAC] *)

Record gac : Type := mk_gac {
  g_u : option ndarray;        (** [self._u] *)
  g_v : Q;                     (** [self._v], the balloon [nu] *)
  g_theta : Q;                 (** [self._theta] *)
  g_smoothing : nat;
  g_data : ndarray;            (** [self._data] *)
  g_ddata : list ndarray;      (** [self._ddata = np.gradient(data)] *)
  g_mask : ndarray;            (** [self._threshold_mask] *)
  g_mask_v : ndarray;          (** [self._threshold_mask_v] *)
  g_structure : ndarray        (** [self.structure] *)
}.

(** The scalar [self._theta/np.abs(self._v)]; numpy divides without
    raising. *)
Definition balloon_level (theta v : Q) : flt := flt_div (Fin theta) (flt_abs (Fin v)).

(** [_update_mask] *)
Definition update_mask (g : gac) : gac :=
  let d := g_data g in
  mk_gac (g_u g) (g_v g) (g_theta g) (g_smoothing g) d (g_ddata g)
    (tabulate (shape d) (fun x => b2q (qlt (g_theta g) (at_ d x))))
    (tabulate (shape d) (fun x => b2q (flt_gt (Fin (at_ d x)) (balloon_level (g_theta g) (g_v g)))))
    (g_structure g).

(** [set_data]: [_data] is assigned before [np.gradient] may raise. *)
Definition gac_set_data (data : ndarray) : M gac unit :=
  fun g =>
    let g1 := mk_gac (g_u g) (g_v g) (g_theta g) (g_smoothing g) data
                     (g_ddata g) (g_mask g) (g_mask_v g) (g_structure g) in
    match gradient data with
    | Raise e => (g1, [], Raise e)
    | Ok dd =>
        let g2 := update_mask (mk_gac (g_u g1) (g_v g1) (g_theta g1) (g_smoothing g1)
                                      data dd (g_mask g1) (g_mask_v g1) (g_structure g1)) in
        (mk_gac (g_u g2) (g_v g2) (g_theta g2) (g_smoothing g2) (g_data g2) (g_ddata g2)
                (g_mask g2) (g_mask_v g2) (tabulate (repeat 3%nat (ndim data)) (fun _ => 1)),
         [], Ok tt)
    end.

(** [MorphGAC(data, smoothing, threshold, balloon)]: the attributes are set,
    then [set_data] runs; if it raises, no object is built. *)
Definition gac_init (data : ndarray) (smoothing : nat) (threshold balloon : Q) : outcome gac :=
  let g0 := mk_gac None balloon threshold smoothing data [] (zeros []) (zeros []) (zeros []) in
  match gac_set_data data g0 with
  | (g, _, Ok _) => Ok g
  | (_, _, Raise e) => Raise e
  end.

(** [set_balloon] and [set_threshold] *)
Definition gac_set_balloon (v : Q) (g : gac) : gac :=
  update_mask (mk_gac (g_u g) v (g_theta g) (g_smoothing g) (g_data g) (g_ddata g)
                      (g_mask g) (g_mask_v g) (g_structure g)).


Definition gac_with_u (g : gac) (u : option ndarray) : gac :=
  mk_gac u (g_v g) (g_theta g) (g_smoothing g) (g_data g) (g_ddata g)
         (g_mask g) (g_mask_v g) (g_structure g).

Definition gac_set_levelset (u : ndarray) (g : gac) : gac :=
  gac_with_u g (Some (levelset_of u)).

(** The balloon force of [step]: dilation for [v > 0], erosion for
    [v < 0], then [res[mask_v] = aux[mask_v]].  scipy refuses a structuring
    element of another rank; numpy refuses a boolean index of another
    shape. *)
Definition gac_balloon (g : gac) (u res : ndarray) : outcome ndarray :=
  let v := g_v g in
  let op := if qlt 0 v then Some dilation else if qlt v 0 then Some erosion else None in
  match op with
  | None => Ok res
  | Some op =>
      if negb (Nat.eqb (ndim (g_structure g)) (ndim u)) then
        Raise (RuntimeError "structure and input must have same dimensionality")
      else if negb (shape_eqb (shape (g_mask_v g)) (shape res)) then
        Raise (IndexError "boolean index did not match indexed array")
      else
        let mv := g_mask_v g in
        Ok (tabulate (shape res) (fun x =>
              if nonzero (at_ mv x) then b2q (op u (g_structure g) x) else at_ res x))
  end.

(** The image attachment of [step]:
    [aux += el1*el2] over [zip(dgI, np.gradient(res))], then
    [res[aux > 0] = 1; res[aux < 0] = 0].  For 1-D arrays [np.gradient]
    returns the array itself and [zip] pairs its elements, so every entry
    of [aux] receives the whole scalar sum.  Shapes that differ are refused
    (numpy's broadcasting of arrays of different ranks is not modelled). *)
Definition gac_attach (g : gac) (res : ndarray) : outcome ndarray :=
  match gradient res with
  | Raise e => Raise e
  | Ok dres =>
      if negb (shape_eqb (shape (g_data g)) (shape res)) then
        Raise (ValueError "operands could not be broadcast together")
      else
        let sh := shape res in
        let aux :=
          if Nat.eqb (length sh) 1 then
            let t := fold_left (fun acc x => acc + at_ (hd (zeros sh) (g_ddata g)) x
                                                  * at_ (hd (zeros sh) dres) x)
                               (indices sh) 0 in
            fun _ => t
          else
            fun x => fold_left (fun acc p => acc + at_ (fst p) x * at_ (snd p) x)
                               (combine (g_ddata g) dres) 0 in
        let res := masked_set res (fun x => qlt 0 (aux x)) 1 in
        Ok (masked_set res (fun x => qlt (aux x) 0) 0)
  end.

(** [MorphGAC.step] *)
Definition gac_step : M (morph * gac) unit :=
  s <- get ;;
  let g := snd s in
  match g_u g with
  | None => raise (ValueError "the levelset is not set (use set_levelset)")
  | Some u =>
      let res := copy u in
      res <- of_outcome (gac_balloon g u res) ;;
      res <- of_outcome (gac_attach g res) ;;
      res <- on_fst (smooth (g_smoothing g) res) ;;
      s' <- get ;;
      put (fst s', gac_with_u (snd s') (Some res))
  end.

(** [MorphGAC.run] *)
Fixpoint gac_run (n : nat) : M (morph * gac) unit :=
  match n with
  | 0%nat => ret tt
  | S n' => gac_step ;;; gac_run n'
  end.

(* ================================================================== *)
(** ** [circle_levelset] and [soma_detect] *)

(** [circle_levelset(shape, center, sqradius)]: [u = (phi > 0)] with
    [phi = sqradius - sqrt(sum((x - center)**2))].  [phi > 0] is decided
    exactly: [sqrt d < r] iff [0 < r] and [d < r*r]. *)
Definition circle_levelset (sh : list nat) (center : list Q) (sqradius : Q) : ndarray :=
  tabulate sh (fun x =>
    let d := fold_left (fun acc p => acc + (inject_Z (Z.of_nat (fst p)) - snd p)
                                          * (inject_Z (Z.of_nat (fst p)) - snd p))
                       (combine x center) 0 in
    b2q (qlt 0 sqradius && qlt d (sqradius * sqradius))).

(** Modelled from the spec: [writetiff3d] of [rivuletpy.utils.io] (imported
    by soma.py, not part of src/) is the volumetric image file writer that
    the spec places outside the core (section 1: reading/writing volumetric
    image files).  Calling it writes [img] to the file [path]. *)
Definition writetiff3d {St} (path : string) (img : ndarray) : M St unit :=
  tell (WriteTiff3d path img).

Definition somabox_path : string :=
  "/home/donghao/Desktop/zebrafishlarveRGC/2_somabox.tif".

(** [min(max(0, p), n - 1)] followed by [astype(int)]. *)
Definition clamp (p : Z) (n : nat) : Z := Z.min (Z.max 0 p) (Z.of_nat n - 1).

(** [sqrval = np.floor(min(max(somaradius**0.5 * m, 3), somaradius**0.5 * 6))]
    for [somaradius >= 0] and [m >= 0], computed exactly on integers:
    [floor (sqrt r * m) = Z.sqrt (floor (r * m * m))], and [floor] commutes
    with [min] and [max]. *)
Definition sqrval_of (somaradius m : Q) : Z :=
  Z.min (Z.max (Z.sqrt (Qfloor (somaradius * m * m))) 3)
        (Z.sqrt (Qfloor (36 * somaradius))).

(** [x.astype(np.uint8)] for the non-negative values that occur. *)
Definition to_uint8 (q : Q) : Q := inject_Z (Z.modulo (Qfloor q) 256).

Definition nat_of_Z := Z.to_nat.

(** Runs evolver code on a local [MorphACWE] object. *)
Definition with_acwe {A} (e : acwe) (m : M (morph * acwe) A) : M morph (A * acwe) :=
  fun w => let '(s', o, r) := m (w, e) in
           (fst s', o, match r with Ok a => Ok (a, snd s') | Raise x => Raise x end).

Fixpoint repeat_step (n : nat) : M (morph * acwe) unit :=
  match n with
  | 0%nat => ret tt
  | S n' => acwe_step ;;; repeat_step n'
  end.

(** [soma_detect(img, somapos, somaradius, smoothing, lambda1, lambda2,
    soma, iterations)] for a 3-D [img]; [somapos] is an integer triple. *)
Definition soma_detect (img : ndarray) (somapos : list Z) (somaradius : Q)
           (smoothing : nat) (lambda1 lambda2 : Q) (soma : bool) (iterations : Z)
  : M morph ndarray :=
  match shape img with
  | [n0; n1; n2] =>
      if Nat.eqb n2 0 then raise ZeroDivisionError else
      let ratioxz := inject_Z (Z.of_nat n0) / inject_Z (Z.of_nat n2) in
      let ratioyz := inject_Z (Z.of_nat n1) / inject_Z (Z.of_nat n2) in
      tell (Print "The ratioxz is ... The ratioyz is ...") ;;;
      if qlt somaradius 0 then
        raise (TypeError "'>' not supported between instances of 'complex' and 'int'")
      else
      let sqrval := sqrval_of somaradius (Qmax ratioxz ratioyz) in
      tell (Print "The replacesqrval is ...") ;;;
      match somapos with
      | [p0; p1; p2] =>
          let startpt := [p0 - 3 * sqrval; p1 - 3 * sqrval; p2 - 3 * sqrval]%Z in
          let endpt := [p0 + 3 * sqrval; p1 + 3 * sqrval; p2 + 3 * sqrval]%Z in
          tell (Print "startpt endpt") ;;;
          let s := map (fun pn => clamp (fst pn) (snd pn)) (combine startpt [n0; n1; n2]) in
          let e := map (fun pn => clamp (fst pn) (snd pn)) (combine endpt [n0; n1; n2]) in
          tell (Print "startpt endpt") ;;;
          let lens := map (fun se => nat_of_Z (Z.max 0 (snd se - fst se))) (combine s e) in
          let off := map nat_of_Z s in
          let somaimg := tabulate lens (fun x =>
                           at_ img (map (fun p => (fst p + snd p)%nat) (combine x off))) in
          writetiff3d somabox_path somaimg ;;;
          let centerpt := map (fun n => inject_Z (Z.of_nat n / 2)) lens in
          tell (Print "centerpt") ;;;
          let macwe := acwe_set_levelset (circle_levelset lens centerpt (inject_Z sqrval))
                                         (acwe_init somaimg smoothing lambda1 lambda2) in
          r <- with_acwe macwe
                 (if Z.eqb iterations (-1) then acwe_autoconvg ;;; ret tt
                  else repeat_step (Z.to_nat iterations)) ;;
          let u := match a_u (snd r) with Some u => u | None => zeros lens end in
          ret (tabulate [n0; n1; n2] (fun x =>
                 let inside := forallb (fun t => let '(xi, (si, ni)) := t in
                                         Nat.leb si xi && Nat.ltb xi (si + ni))
                                       (combine x (combine off lens)) in
                 to_uint8 (if inside
                           then at_ u (map (fun p => (fst p - snd p)%nat) (combine x off)) * 40
                           else 0)))
      | _ => raise (ValueError "somapos must have three coordinates")
      end
  | _ => raise (IndexError "tuple index out of range")
  end.

(* ================================================================== *)
(** ** Reference formulations used in the statements *)

(** The reachable contents of [_aux]: the initial [np.zeros((0))], or a
    buffer holding one layer per element of the family of its rank. *)
Definition buf_ok (b : ndarray) : Prop :=
  shape b = [0%nat] \/
  exists P, family (length (tl (shape b))) = Some P /\ shape b = length P :: tl (shape b).

(** Mean intensity of [data] over the voxels whose level-set value
    satisfies [sel], as sum over count; over no voxel it is 0/0 = NaN. *)
Definition spec_mean (data u : ndarray) (sel : Q -> bool) : flt :=
  let xs := filter (fun x => sel (at_ u x)) (indices (shape u)) in
  flt_div (Fin (fold_left Qplus (map (at_ data) xs) 0))
          (Fin (inject_Z (Z.of_nat (length xs)))).

(** Per-voxel sum over the axes of the absolute value of the gradient. *)
Definition grad_mag (u : ndarray) (x : list nat) : Q :=
  fold_left (fun acc k => acc + Qabs (gradient_axis u k x)) (seq 0 (ndim u)) 0.

(** The region-competition energy
    [|grad u| * (l1*(data - c1)^2 - l2*(data - c0)^2)] with [c0] the mean
    over the outside ([u <= 0]) and [c1] the mean over the inside ([u > 0]). *)
Definition spec_energy (l1 l2 : Q) (data u : ndarray) (x : list nat) : flt :=
  let c0 := spec_mean data u outside_q in
  let c1 := spec_mean data u inside_q in
  flt_mul (Fin (grad_mag u x))
    (flt_sub (flt_mul (Fin l1) (sq (flt_sub (Fin (at_ data x)) c1)))
             (flt_mul (Fin l2) (sq (flt_sub (Fin (at_ data x)) c0)))).

(** The end of a step: [smoothing] curvature passes, then the store. *)
Definition acwe_commit (e : acwe) (res : ndarray) : M (morph * acwe) unit :=
  res <- on_fst (smooth (a_smoothing e) res) ;;
  s' <- get ;;
  put (fst s', acwe_with_u (snd s') res).

(** A state on which [MorphACWE.step] can run: a reachable scratch buffer,
    a level set of the shape of the data, no axis shorter than 2 (what
    [np.gradient] needs), and a rank the curvature operator accepts
    whenever it is used. *)
Definition acwe_valid (s : morph * acwe) : Prop :=
  buf_ok (m_aux (fst s)) /\
  exists u, a_u (snd s) = Some u /\ shape u = shape (a_data (snd s)) /\
            (forall n, In n (shape u) -> (2 <= n)%nat) /\
            (a_smoothing (snd s) = 0%nat \/ ndim u = 2%nat \/ ndim u = 3%nat).

(** A step counter around a computation (ghost instrumentation). *)
Definition counted {St} (step : M St unit) : M (St * nat) unit :=
  fun sc => let '(s, c) := sc in
            let '(s', o, r) := step s in ((s', S c), o, r).

(** The convergence rule as the spec words it: the sum of the most recent
    6 forward differences, compared with 20 or with 10% of the foreground
    count, combined by logical OR. *)
Section AutoConvgClaimed.
Context {St : Type} (step : M St unit) (get_u : St -> option ndarray).

Definition claimed_slider (fd : nat -> Q) (i : nat) : Q :=
  fold_left (fun acc j => acc + fd j) (seq (i - 6)%nat 6%nat) 0.

Definition claimed_stop (csd fn_i : Q) : bool :=
  qlt (Qabs csd) 20 || qlt (Qabs csd) ((1#10) * fn_i).

Fixpoint claimed_loop (k i : nat) (fn fd : nat -> Q) : M St nat :=
  match k with
  | 0%nat => ret i
  | S k' =>
      step ;;;
      s <- get ;;
      match get_u s with
      | None => raise (TypeError "'NoneType' object is not subscriptable")
      | Some u =>
          let fn := upd_fun fn i (foreground u) in
          if Nat.ltb 0%nat i then
            let fd := upd_fun fd (i - 1)%nat (fn i - fn (i - 1)%nat) in
            if Nat.ltb 6%nat i && claimed_stop (claimed_slider fd i) (fn i)
            then ret (S i)
            else claimed_loop k' (S i) fn fd
          else claimed_loop k' (S i) fn fd
      end
  end.

Definition autoconvg_claimed : M St nat :=
  claimed_loop iterations 0 (fun _ => 0) (fun _ => 0).
End AutoConvgClaimed.

(** Layer [j] of the buffer filled by [SI]/[IS]: [op(u, P[j])]. *)
Definition layers_of (op : ndarray -> ndarray -> list nat -> bool) (u : ndarray)
           (P : list ndarray) (y : list nat) : Q :=
  match y with j :: x => b2q (op u (nth j P (zeros [])) x) | [] => 0 end.

(* ================================================================== *)
(** ** Formulations used by the further properties *)

(** A structuring element of side 3 whose centre is set. *)
Definition centred (r : nat) (st : ndarray) : Prop :=
  shape st = repeat 3%nat r /\ nonzero (at_ st (repeat 1%nat r)) = true.

(** Pointwise order of two arrays of one shape. *)
Definition below (u1 u2 : ndarray) : Prop :=
  shape u1 = shape u2 /\ forall x, inb (shape u1) x = true -> at_ u1 x <= at_ u2 x.

(** Pointwise order of the nonzero sets. *)
Definition nzle (u1 u2 : ndarray) : Prop :=
  shape u1 = shape u2 /\
  forall y, inb (shape u1) y = true -> nonzero (at_ u1 y) = true -> nonzero (at_ u2 y) = true.

(** [q] is the integer [z], written as [z/1]. *)
Definition qis (q : Q) (z : Z) : bool := Z.eqb (Qnum q) z && Pos.eqb (Qden q) 1.

(** A computation that leaves the [curvop] cycle where it found it. *)
Definition keeps_cycle {A} (m : M morph A) : Prop :=
  forall w, m_cycle (fst (fst (m w))) = m_cycle w.

(** [s] holds the evolver [e], with at most its level set replaced. *)
Definition acwe_frame (e : acwe) (s : morph * acwe) : Prop :=
  snd s = e \/ exists u, snd s = acwe_with_u e u.

(** [s] holds the evolver [g], with at most its level set replaced. *)
Definition gac_frame (g : gac) (s : morph * gac) : Prop :=
  snd s = g \/ exists u, snd s = gac_with_u g (Some u).


(** A level set with no voxel set. *)
Definition empty_ls (u : ndarray) : Prop :=
  forall x, inb (shape u) x = true -> nonzero (at_ u x) = false.

(* ================================================================== *)
(** * Proofs *)

(** ** Arrays *)

Lemma nth_map_seq {A} (g : nat -> A) n i d :
  (i < n)%nat -> nth i (map g (seq 0 n)) d = g i.
Proof.
  intros Hi.
  rewrite nth_indep with (d' := g 0%nat) by (rewrite length_map, length_seq; lia).
  rewrite map_nth, seq_nth by lia; reflexivity.
Qed.

Lemma tget_tgen sh f x : inb sh x = true -> tget x (tgen sh f) = f x.
Proof.
  revert f x; induction sh as [|n sh IH]; intros f [|i x] H; simpl in *;
    try discriminate; [reflexivity|].
  apply andb_prop in H as [Hi Hx]; apply Nat.ltb_lt in Hi.
  rewrite (nth_map_seq (fun j => tgen sh (fun y => f (j :: y)))) by exact Hi.
  exact (IH (fun y => f (i :: y)) x Hx).
Qed.

Lemma at_tabulate sh f x : inb sh x = true -> at_ (tabulate sh f) x = f x.
Proof. apply tget_tgen. Qed.

Lemma tgen_ext_in sh f g :
  (forall x, inb sh x = true -> f x = g x) -> tgen sh f = tgen sh g.
Proof.
  revert f g; induction sh as [|n sh IH]; intros f g H; simpl.
  - f_equal; apply H; reflexivity.
  - f_equal; apply map_ext_in; intros i Hi; apply in_seq in Hi.
    apply IH; intros x Hx; apply H; simpl.
    apply andb_true_intro; split; [apply Nat.ltb_lt; lia | exact Hx].
Qed.

Lemma tabulate_ext_in sh f g :
  (forall x, inb sh x = true -> f x = g x) -> tabulate sh f = tabulate sh g.
Proof. intros H; unfold tabulate; f_equal; apply tgen_ext_in; exact H. Qed.

Lemma in_indices sh x : In x (indices sh) <-> inb sh x = true.
Proof.
  revert x; induction sh as [|n sh IH]; intros x; simpl.
  - split.
    + intros [<-|[]]; reflexivity.
    + destruct x; [auto | discriminate].
  - rewrite in_flat_map; split.
    + intros (i & Hi & Hx); apply in_seq in Hi; apply in_map_iff in Hx as (y & <- & Hy).
      apply andb_true_intro; split; [apply Nat.ltb_lt; lia | apply IH; exact Hy].
    + destruct x as [|i y]; [discriminate|]; intros H.
      apply andb_prop in H as [Hi Hy]; apply Nat.ltb_lt in Hi.
      exists i; split; [apply in_seq; lia | apply in_map; apply IH; exact Hy].
Qed.

Lemma inb_length sh x : inb sh x = true -> length x = length sh.
Proof.
  revert x; induction sh as [|n sh IH]; intros [|i x] H; simpl in *; try discriminate; auto.
  apply andb_prop in H as [_ H]; f_equal; auto.
Qed.

(** ** The monad *)

Lemma bind_ok {S A B} (m : M S A) (k : A -> M S B) s s1 o1 a :
  m s = (s1, o1, Ok a) ->
  bind m k s = (let '(s2, o2, r) := k a s1 in (s2, o1 ++ o2, r)).
Proof. intros H; unfold bind; rewrite H; reflexivity. Qed.

Lemma bind_raise {S A B} (m : M S A) (k : A -> M S B) s s1 o1 e :
  m s = (s1, o1, Raise e) -> bind m k s = (s1, o1, Raise e).
Proof. intros H; unfold bind; rewrite H; reflexivity. Qed.

(** ** SI and IS *)

Lemma fill_layers_step op u st P i w :
  Nat.ltb i (hd 0%nat (shape (m_aux w))) = true ->
  fill_layers op u (st :: P) i w =
  fill_layers op u P (S i)
    (mk_morph (m_cycle w) (assign_layer (m_aux w) i (fun x => b2q (op u st x)))).
Proof.
  intros H; simpl; unfold bind, get, set_aux; rewrite H.
  destruct (fill_layers _ _ _ _ _) as [[? ?] ?]; reflexivity.
Qed.

Lemma fill_layers_spec op u st P : forall i w n sh,
  shape (m_aux w) = n :: sh -> (i + S (length P) <= n)%nat ->
  fill_layers op u (st :: P) i w =
  (mk_morph (m_cycle w)
     (tabulate (n :: sh) (fun y =>
        match y with
        | j :: x => if Nat.leb i j && Nat.ltb j (i + S (length P))
                    then b2q (op u (nth (j - i) (st :: P) (zeros [])) x)
                    else at_ (m_aux w) y
        | [] => at_ (m_aux w) y
        end)), [], Ok tt).
Proof.
  revert st; induction P as [|st' P IH]; intros st i w n sh Hsh Hle;
    cbn [length] in Hle |- *;
    (rewrite fill_layers_step by (rewrite Hsh; cbn [hd]; apply Nat.ltb_lt; lia)).
  - cbn [fill_layers]; unfold ret. f_equal. f_equal. f_equal.
    unfold assign_layer. rewrite Hsh. apply tabulate_ext_in.
    intros [|j x] Hx; [reflexivity|].
    destruct (Nat.eqb_spec j i) as [->|Hji].
    + rewrite Nat.leb_refl, Nat.sub_diag.
      replace (Nat.ltb i (i + 1)) with true by (symmetry; apply Nat.ltb_lt; lia). reflexivity.
    + replace (Nat.leb i j && Nat.ltb j (i + 1)) with false; [reflexivity|].
      symmetry; apply andb_false_iff.
      destruct (Nat.leb_spec i j); [right; apply Nat.ltb_ge; lia | left; reflexivity].
  - set (w1 := mk_morph (m_cycle w) (assign_layer (m_aux w) i (fun x => b2q (op u st x)))).
    assert (Hsh1 : shape (m_aux w1) = n :: sh) by (simpl; exact Hsh).
    rewrite (IH st' (S i) w1 n sh Hsh1) by lia.
    f_equal. f_equal. f_equal. apply tabulate_ext_in.
    intros [|j x] Hx; [discriminate|].
    unfold w1; cbn [m_aux]. unfold assign_layer. rewrite Hsh.
    destruct (Nat.eqb_spec j i) as [->|Hji].
    + replace (Nat.leb (S i) i) with false by (symmetry; apply Nat.leb_gt; lia).
      rewrite at_tabulate by exact Hx. rewrite Nat.eqb_refl, Nat.leb_refl, Nat.sub_diag.
      replace (Nat.ltb i (i + S (S (length P)))) with true
        by (symmetry; apply Nat.ltb_lt; lia).
      reflexivity.
    + rewrite at_tabulate by exact Hx.
      apply Nat.eqb_neq in Hji as Hji'. rewrite Hji'.
      destruct (Nat.leb_spec (S i) j) as [Hij|Hij].
      * replace (Nat.leb i j) with true by (symmetry; apply Nat.leb_le; lia).
        destruct (Nat.ltb_spec j (S i + S (length P))) as [Hj|Hj];
        destruct (Nat.ltb_spec j (i + S (S (length P)))) as [Hj'|Hj']; try lia; cbn [andb].
        -- replace (j - i)%nat with (S (j - S i)) by lia. reflexivity.
        -- reflexivity.
      * replace (Nat.leb i j) with false by (symmetry; apply Nat.leb_gt; lia). reflexivity.
Qed.

Lemma family_cases r P :
  family r = Some P -> (r = 2%nat /\ P = P2) \/ (r = 3%nat /\ P = P3).
Proof.
  destruct r as [|[|[|[|r]]]]; simpl; intros H; try discriminate;
    injection H as <-; auto.
Qed.

Lemma shape_eqb_true a b : shape_eqb a b = true <-> a = b.
Proof. unfold shape_eqb; destruct (list_eq_dec Nat.eq_dec a b); split; congruence. Qed.

(** After [multi_op]'s buffer check and fill, [_aux] holds exactly the
    layers [op(u, P[j])], whatever reachable buffer it started from. *)
Lemma multi_op_spec op red u w P :
  buf_ok (m_aux w) -> family (ndim u) = Some P ->
  multi_op op red u w =
  (let b := tabulate (length P :: shape u) (layers_of op u P) in
   (mk_morph (m_cycle w) b, [], reduce0 red b)).
Proof.
  intros Hw Hf. unfold multi_op. rewrite Hf.
  assert (HP : exists st P', P = st :: P')
    by (apply family_cases in Hf as [[_ ->]|[_ ->]]; eexists _, _; reflexivity).
  destruct HP as (st & P' & ->).
  assert (Hfill : forall w0, shape (m_aux w0) = length (st :: P') :: shape u ->
    fill_layers op u (st :: P') 0 w0 =
    (mk_morph (m_cycle w0) (tabulate (length (st :: P') :: shape u) (layers_of op u (st :: P'))),
     [], Ok tt)).
  { intros w0 Hs. rewrite (fill_layers_spec op u st P' 0 w0 _ _ Hs) by (simpl; lia).
    f_equal; f_equal; f_equal. apply tabulate_ext_in.
    intros [|j x] Hx; [discriminate|].
    cbn [inb] in Hx; apply andb_prop in Hx as [Hj _]; apply Nat.ltb_lt in Hj.
    cbn [length] in Hj |- *.
    replace (Nat.leb 0 j && Nat.ltb j (0 + S (length P'))) with true
      by (symmetry; apply andb_true_intro; split; [reflexivity | apply Nat.ltb_lt; lia]).
    rewrite Nat.sub_0_r; reflexivity. }
  unfold bind at 1, get at 1.
  destruct (shape_eqb (shape u) (tl (shape (m_aux w)))) eqn:He.
  - apply shape_eqb_true in He.
    assert (Hs : shape (m_aux w) = length (st :: P') :: shape u).
    { destruct Hw as [H0|(P0 & HP0 & Hs0)].
      - rewrite H0 in He; simpl in He.
        apply family_cases in Hf as [[Hr _]|[Hr _]]; unfold ndim in Hr;
          rewrite He in Hr; discriminate.
      - rewrite <- He in HP0. unfold ndim in Hf. rewrite Hf in HP0.
        injection HP0 as <-. rewrite Hs0, <- He; reflexivity. }
    unfold bind, ret at 1; cbn [app]. rewrite (Hfill w Hs). reflexivity.
  - unfold bind, set_aux at 1; cbn [app].
    rewrite Hfill by reflexivity. reflexivity.
Qed.

Lemma fold_seq_nth {A B} (f : A -> B -> A) (g : nat -> B) d (L : list B) :
  forall k a,
  (forall j, (k <= j < k + length L)%nat -> g j = nth (j - k) L d) ->
  fold_left (fun acc j => f acc (g j)) (seq k (length L)) a = fold_left f L a.
Proof.
  induction L as [|b L IH]; intros k a H; [reflexivity|].
  cbn [length seq fold_left].
  rewrite (H k) by (simpl; lia). rewrite Nat.sub_diag. cbn [nth].
  apply IH. intros j Hj. rewrite H by (simpl; lia).
  replace (j - k)%nat with (S (j - S k)) by lia. reflexivity.
Qed.

(** [_aux.max(0)] / [_aux.min(0)] over the filled layers. *)
Lemma reduce0_layers op red u st P' :
  reduce0 red (tabulate (length (st :: P') :: shape u) (layers_of op u (st :: P'))) =
  Ok (tabulate (shape u) (fun x =>
        fold_left red (map (fun s => b2q (op u s x)) P') (b2q (op u st x)))).
Proof.
  unfold reduce0; cbn [shape tabulate length]. f_equal. apply tabulate_ext_in.
  intros x Hx.
  rewrite at_tabulate by (cbn [inb]; rewrite Hx; reflexivity).
  rewrite <- (length_map (fun s => b2q (op u s x)) P').
  apply (fold_seq_nth red _ 0).
  intros j Hj. rewrite length_map in Hj.
  rewrite at_tabulate.
  - cbn [layers_of]. destruct j as [|j]; [lia|]. cbn [nth].
    rewrite Nat.sub_1_r; cbn [Nat.pred].
    rewrite nth_indep with (d' := (fun s => b2q (op u s x)) (zeros []))
      by (rewrite length_map; lia).
    rewrite (map_nth (fun s => b2q (op u s x))); reflexivity.
  - cbn [inb length]; rewrite Hx, andb_true_r; rewrite length_map; apply Nat.ltb_lt; lia.
Qed.

Lemma Qmax_b2q a b : Qmax (b2q a) (b2q b) = b2q (a || b).
Proof. destruct a, b; reflexivity. Qed.

Lemma Qmin_b2q a b : Qmin (b2q a) (b2q b) = b2q (a && b).
Proof. destruct a, b; reflexivity. Qed.

Lemma fold_Qmax_b2q {B} (g : B -> bool) L b :
  fold_left Qmax (map (fun s => b2q (g s)) L) (b2q b) = b2q (b || existsb g L).
Proof.
  revert b; induction L as [|s L IH]; intros b; simpl.
  - rewrite orb_false_r; reflexivity.
  - rewrite Qmax_b2q, IH, orb_assoc; reflexivity.
Qed.

Lemma fold_Qmin_b2q {B} (g : B -> bool) L b :
  fold_left Qmin (map (fun s => b2q (g s)) L) (b2q b) = b2q (b && forallb g L).
Proof.
  revert b; induction L as [|s L IH]; intros b; simpl.
  - rewrite andb_true_r; reflexivity.
  - rewrite Qmin_b2q, IH, andb_assoc; reflexivity.
Qed.

Lemma family_nonempty r P : family r = Some P -> exists st P', P = st :: P'.
Proof.
  intros Hf; apply family_cases in Hf as [[_ ->]|[_ ->]]; eexists _, _; reflexivity.
Qed.

Lemma multi_op_bad_rank op red u w :
  family (ndim u) = None ->
  multi_op op red u w =
  (w, [], Raise (ValueError "u has an invalid number of dimensions (should be 2 or 3)")).
Proof. intros Hf; unfold multi_op; rewrite Hf; reflexivity. Qed.

Lemma SI_spec u w P :
  buf_ok (m_aux w) -> family (ndim u) = Some P ->
  SI u w =
  (mk_morph (m_cycle w) (tabulate (length P :: shape u) (layers_of erosion u P)), [],
   Ok (tabulate (shape u) (fun x => b2q (existsb (fun st => erosion u st x) P)))).
Proof.
  intros Hw Hf. unfold SI. rewrite (multi_op_spec _ _ _ _ _ Hw Hf). cbv zeta.
  destruct (family_nonempty _ _ Hf) as (st & P' & ->).
  rewrite reduce0_layers. do 2 f_equal. apply tabulate_ext_in; intros x _.
  apply fold_Qmax_b2q.
Qed.

Lemma IS_spec u w P :
  buf_ok (m_aux w) -> family (ndim u) = Some P ->
  IS u w =
  (mk_morph (m_cycle w) (tabulate (length P :: shape u) (layers_of dilation u P)), [],
   Ok (tabulate (shape u) (fun x => b2q (forallb (fun st => dilation u st x) P)))).
Proof.
  intros Hw Hf. unfold IS. rewrite (multi_op_spec _ _ _ _ _ Hw Hf). cbv zeta.
  destruct (family_nonempty _ _ Hf) as (st & P' & ->).
  rewrite reduce0_layers. do 2 f_equal. apply tabulate_ext_in; intros x _.
  apply fold_Qmin_b2q.
Qed.

Lemma buf_ok_layers op u P :
  family (ndim u) = Some P -> buf_ok (tabulate (length P :: shape u) (layers_of op u P)).
Proof. intros Hf; right; exists P; split; [exact Hf | reflexivity]. Qed.

(** ** Reachable buffers: results do not depend on the buffer contents *)

(** Two module states that agree on the [curvop] cycle and hold
    reachable buffers. *)
Definition msim (w1 w2 : morph) : Prop :=
  m_cycle w1 = m_cycle w2 /\ buf_ok (m_aux w1) /\ buf_ok (m_aux w2).

(** Two runs related on their final states, with equal output and outcome. *)
Definition res_rel {S A} (R : S -> S -> Prop) (x y : S * list effect * outcome A) : Prop :=
  let '(s1, o1, r1) := x in let '(s2, o2, r2) := y in R s1 s2 /\ o1 = o2 /\ r1 = r2.

Lemma bind_rel {S A B} (R : S -> S -> Prop) (m : M S A) (k : A -> M S B) s1 s2 :
  res_rel R (m s1) (m s2) ->
  (forall a t1 t2, R t1 t2 -> res_rel R (k a t1) (k a t2)) ->
  res_rel R (bind m k s1) (bind m k s2).
Proof.
  intros Hm Hk; unfold bind.
  destruct (m s1) as [[t1 o1] r1], (m s2) as [[t2 o2] r2].
  destruct Hm as (HR & <- & <-). destruct r1 as [a|x]; [|simpl; auto].
  specialize (Hk a t1 t2 HR).
  destruct (k a t1) as [[u1 p1] q1], (k a t2) as [[u2 p2] q2].
  destruct Hk as (HR' & <- & <-). simpl; auto.
Qed.

Lemma SI_rel u w1 w2 : msim w1 w2 -> res_rel msim (SI u w1) (SI u w2).
Proof.
  intros (Hc & H1 & H2). destruct (family (ndim u)) as [P|] eqn:Hf.
  - rewrite (SI_spec u w1 P H1 Hf), (SI_spec u w2 P H2 Hf).
    simpl; repeat split; try apply buf_ok_layers; auto.
  - unfold SI; rewrite !multi_op_bad_rank by exact Hf. simpl; repeat split; auto.
Qed.

Lemma IS_rel u w1 w2 : msim w1 w2 -> res_rel msim (IS u w1) (IS u w2).
Proof.
  intros (Hc & H1 & H2). destruct (family (ndim u)) as [P|] eqn:Hf.
  - rewrite (IS_spec u w1 P H1 Hf), (IS_spec u w2 P H2 Hf).
    simpl; repeat split; try apply buf_ok_layers; auto.
  - unfold IS; rewrite !multi_op_bad_rank by exact Hf. simpl; repeat split; auto.
Qed.

Lemma curvop_rel u w1 w2 : msim w1 w2 -> res_rel msim (curvop u w1) (curvop u w2).
Proof.
  intros H. unfold curvop. destruct H as (Hc & H1 & H2). rewrite Hc.
  assert (Hf : msim (mk_morph (negb (m_cycle w2)) (m_aux w1))
                    (mk_morph (negb (m_cycle w2)) (m_aux w2)))
    by (repeat split; auto).
  destruct (m_cycle w2); unfold ISoSI, SIoIS; apply bind_rel;
    auto using SI_rel, IS_rel.
Qed.

Lemma smooth_rel n : forall u w1 w2, msim w1 w2 -> res_rel msim (smooth n u w1) (smooth n u w2).
Proof.
  induction n as [|n IH]; intros u w1 w2 H; simpl.
  - split; [exact H | auto].
  - apply bind_rel; auto using curvop_rel.
Qed.

(** ** Unfolding the steps of the evolvers *)

Lemma acwe_step_eq w e :
  acwe_step (w, e) =
  match a_u e with
  | None => ((w, e), [], Raise (ValueError "the levelset function is not set (use set_levelset)"))
  | Some u =>
      if negb (shape_eqb (shape (a_data e)) (shape u)) then
        ((w, e), [], Raise (IndexError "boolean index did not match indexed array"))
      else
        match acwe_attach (a_lambda1 e) (a_lambda2 e) (a_data e) u with
        | Raise x => ((w, e), [], Raise x)
        | Ok res =>
            let '(w', o, r) := smooth (a_smoothing e) res w in
            match r with
            | Ok res' => ((w', acwe_with_u e res'), o, Ok tt)
            | Raise x => ((w', e), o, Raise x)
            end
        end
  end.
Proof.
  unfold acwe_step, bind at 1, get at 1; cbn [snd fst].
  destruct (a_u e) as [u|]; [|reflexivity].
  destruct (negb _); [reflexivity|].
  unfold bind, of_outcome at 1.
  destruct (acwe_attach _ _ _ _) as [res|x]; [|reflexivity].
  unfold on_fst at 1. destruct (smooth _ _ w) as [[w' o] [r|x]]; [|reflexivity].
  cbn; rewrite app_nil_r; reflexivity.
Qed.

Lemma gac_step_eq w g :
  gac_step (w, g) =
  match g_u g with
  | None => ((w, g), [], Raise (ValueError "the levelset is not set (use set_levelset)"))
  | Some u =>
      match gac_balloon g u (copy u) with
      | Raise x => ((w, g), [], Raise x)
      | Ok res =>
          match gac_attach g res with
          | Raise x => ((w, g), [], Raise x)
          | Ok res =>
              let '(w', o, r) := smooth (g_smoothing g) res w in
              match r with
              | Ok res' => ((w', gac_with_u g (Some res')), o, Ok tt)
              | Raise x => ((w', g), o, Raise x)
              end
          end
      end
  end.
Proof.
  unfold gac_step, bind at 1, get at 1; cbn [snd fst].
  destruct (g_u g) as [u|]; [|reflexivity].
  unfold bind, of_outcome, on_fst, put; cbn [fst snd].
  destruct (gac_balloon _ _ _) as [res|x]; [|reflexivity].
  destruct (gac_attach _ _) as [res'|x]; [|reflexivity].
  destruct (smooth _ _ w) as [[w' o] [r|x]]; cbn; rewrite ?app_nil_r; reflexivity.
Qed.

(** ** Binary level sets *)

(** The final state satisfies [I] and a returned value satisfies [P]. *)
Definition post {S A} (I : S -> Prop) (P : A -> Prop) (x : S * list effect * outcome A) : Prop :=
  let '(s, _, r) := x in I s /\ forall a, r = Ok a -> P a.

Lemma bind_post {S A B} (I : S -> Prop) (P1 : A -> Prop) (P2 : B -> Prop)
      (m : M S A) (k : A -> M S B) s :
  post I P1 (m s) -> (forall a t, P1 a -> I t -> post I P2 (k a t)) ->
  post I P2 (bind m k s).
Proof.
  intros Hm Hk; unfold bind.
  destruct (m s) as [[t o] r]. destruct Hm as (Ht & Ha).
  destruct r as [a|x]; [|split; [exact Ht | discriminate]].
  specialize (Hk a t (Ha a eq_refl) Ht).
  destruct (k a t) as [[t' o'] r']. exact Hk.
Qed.

Lemma shape_tabulate sh f : shape (tabulate sh f) = sh.
Proof. reflexivity. Qed.

Lemma binary_tabulate_b2q sh f : binary (tabulate sh (fun x => b2q (f x))).
Proof.
  intros x Hx. unfold tabulate in Hx; cbn [shape] in Hx.
  rewrite at_tabulate by exact Hx. destruct (f x); [right|left]; reflexivity.
Qed.

Lemma binary_copy u : binary u -> binary (copy u).
Proof.
  intros Hu x Hx. unfold copy in *; unfold tabulate in Hx; cbn [shape] in Hx.
  rewrite at_tabulate by exact Hx. apply Hu, Hx.
Qed.

Lemma binary_masked_set a mask v : binary a -> v = 0 \/ v = 1 -> binary (masked_set a mask v).
Proof.
  intros Ha Hv x Hx. unfold masked_set in *; unfold tabulate in Hx; cbn [shape] in Hx.
  rewrite at_tabulate by exact Hx. destruct (mask x); auto.
Qed.

Lemma SI_post u w :
  buf_ok (m_aux w) -> post (fun w => buf_ok (m_aux w)) binary (SI u w).
Proof.
  intros Hw. destruct (family (ndim u)) as [P|] eqn:Hf.
  - rewrite (SI_spec u w P Hw Hf). split; [apply buf_ok_layers, Hf|].
    intros a Ha; injection Ha as <-; apply binary_tabulate_b2q.
  - unfold SI; rewrite multi_op_bad_rank by exact Hf. split; [exact Hw | discriminate].
Qed.

Lemma IS_post u w :
  buf_ok (m_aux w) -> post (fun w => buf_ok (m_aux w)) binary (IS u w).
Proof.
  intros Hw. destruct (family (ndim u)) as [P|] eqn:Hf.
  - rewrite (IS_spec u w P Hw Hf). split; [apply buf_ok_layers, Hf|].
    intros a Ha; injection Ha as <-; apply binary_tabulate_b2q.
  - unfold IS; rewrite multi_op_bad_rank by exact Hf. split; [exact Hw | discriminate].
Qed.

Lemma curvop_post u w :
  buf_ok (m_aux w) -> post (fun w => buf_ok (m_aux w)) binary (curvop u w).
Proof.
  intros Hw. unfold curvop.
  destruct (m_cycle w); unfold ISoSI, SIoIS;
    (apply bind_post with (P1 := binary);
     [ first [apply SI_post | apply IS_post]; exact Hw
     | intros a t _ Ht; first [apply SI_post | apply IS_post]; exact Ht ]).
Qed.

Lemma smooth_post n : forall u w,
  buf_ok (m_aux w) -> binary u -> post (fun w => buf_ok (m_aux w)) binary (smooth n u w).
Proof.
  induction n as [|n IH]; intros u w Hw Hu; simpl.
  - split; [exact Hw|]. intros a Ha; injection Ha as <-; exact Hu.
  - apply bind_post with (P1 := binary); [apply curvop_post, Hw|].
    intros a t Ha Ht; apply IH; assumption.
Qed.

Lemma acwe_attach_binary l1 l2 data u res :
  binary u -> acwe_attach l1 l2 data u = Ok res -> binary res.
Proof.
  unfold acwe_attach; intros Hu.
  destruct (gradient u) as [dres|x]; [|discriminate].
  intros H; injection H as <-.
  apply binary_masked_set; [|left; reflexivity].
  apply binary_masked_set; [|right; reflexivity].
  apply binary_copy, Hu.
Qed.

Lemma gac_balloon_binary g u res out :
  binary res -> gac_balloon g u res = Ok out -> binary out.
Proof.
  unfold gac_balloon; intros Hr.
  destruct (if qlt 0 (g_v g) then _ else _) as [op|].
  - destruct (negb _); [discriminate|]. destruct (negb _); [discriminate|].
    intros H; injection H as <-. intros x Hx. unfold tabulate in Hx; cbn [shape] in Hx.
    rewrite at_tabulate by exact Hx.
    destruct (nonzero _); [destruct (op _ _ _); [right|left]; reflexivity | apply Hr, Hx].
  - intros H; injection H as <-; exact Hr.
Qed.

Lemma gac_attach_binary g res out :
  binary res -> gac_attach g res = Ok out -> binary out.
Proof.
  unfold gac_attach; intros Hr.
  destruct (gradient res) as [dres|x]; [|discriminate].
  destruct (negb _); [discriminate|].
  intros H; injection H as <-.
  apply binary_masked_set; [|left; reflexivity].
  apply binary_masked_set; [exact Hr | right; reflexivity].
Qed.

(** The invariant of an evolver: a reachable buffer and a bound, binary
    level set. *)
Definition acwe_inv (s : morph * acwe) : Prop :=
  buf_ok (m_aux (fst s)) /\ exists u, a_u (snd s) = Some u /\ binary u.

Definition gac_inv (s : morph * gac) : Prop :=
  buf_ok (m_aux (fst s)) /\ exists u, g_u (snd s) = Some u /\ binary u.

Lemma acwe_step_inv s : acwe_inv s -> post acwe_inv (fun _ => True) (acwe_step s).
Proof.
  destruct s as [w e]; intros Hinv; pose proof Hinv as [Hw (u & Hu & Hb)];
    cbn [fst snd] in Hw, Hu.
  rewrite acwe_step_eq, Hu.
  destruct (negb _); [split; [exact Hinv | discriminate]|].
  destruct (acwe_attach _ _ _ _) as [res|x] eqn:Ha; [|split; [exact Hinv | discriminate]].
  pose proof (smooth_post (a_smoothing e) res w Hw (acwe_attach_binary _ _ _ _ _ Hb Ha)) as Hs.
  destruct (smooth _ res w) as [[w' o] [r|x]]; destruct Hs as [Hw' Hr].
  - split; [split; [exact Hw'|] | intros; exact I].
    exists r; split; [reflexivity | apply Hr; reflexivity].
  - split; [split; [exact Hw' | exists u; split; assumption] | discriminate].
Qed.

Lemma gac_step_inv s : gac_inv s -> post gac_inv (fun _ => True) (gac_step s).
Proof.
  destruct s as [w g]; intros Hinv; pose proof Hinv as [Hw (u & Hu & Hb)];
    cbn [fst snd] in Hw, Hu.
  rewrite gac_step_eq, Hu.
  destruct (gac_balloon _ _ _) as [res|x] eqn:Hbl; [|split; [exact Hinv | discriminate]].
  destruct (gac_attach _ _) as [res'|x] eqn:Ha; [|split; [exact Hinv | discriminate]].
  assert (Hres : binary res')
    by (eapply gac_attach_binary, Ha; eapply gac_balloon_binary, Hbl; apply binary_copy, Hb).
  pose proof (smooth_post (g_smoothing g) res' w Hw Hres) as Hs.
  destruct (smooth _ res' w) as [[w' o] [r|x]]; destruct Hs as [Hw' Hr].
  - split; [split; [exact Hw'|] | intros; exact I].
    exists r; split; [reflexivity | apply Hr; reflexivity].
  - split; [split; [exact Hw' | exists u; split; assumption] | discriminate].
Qed.

Lemma acwe_run_inv n : forall s, acwe_inv s -> post acwe_inv (fun _ => True) (acwe_run n s).
Proof.
  induction n as [|n IH]; intros s Hs; simpl.
  - split; [exact Hs | intros; exact I].
  - apply bind_post with (P1 := fun _ => True); [apply acwe_step_inv, Hs|].
    intros _ t _ Ht; apply IH, Ht.
Qed.

Lemma gac_run_inv n : forall s, gac_inv s -> post gac_inv (fun _ => True) (gac_run n s).
Proof.
  induction n as [|n IH]; intros s Hs; simpl.
  - split; [exact Hs | intros; exact I].
  - apply bind_post with (P1 := fun _ => True); [apply gac_step_inv, Hs|].
    intros _ t _ Ht; apply IH, Ht.
Qed.

Lemma levelset_of_at u x :
  inb (shape u) x = true ->
  at_ (levelset_of u) x = if qlt 0 (at_ u x) then 1 else 0.
Proof.
  intros Hx. unfold levelset_of, masked_set, copy. rewrite !shape_tabulate.
  rewrite !at_tabulate by exact Hx.
  unfold qlt. destruct (Qle_bool (at_ u x) 0); reflexivity.
Qed.

Lemma levelset_of_binary u : binary (levelset_of u).
Proof.
  intros x Hx. unfold levelset_of, masked_set, copy, tabulate in Hx; cbn [shape] in Hx.
  rewrite levelset_of_at by exact Hx. destruct (qlt _ _); [right|left]; reflexivity.
Qed.

(** ** The region means and the gradient magnitude of [MorphACWE.step] *)

Lemma fold_mask_filter {A} (m : A -> bool) (f : A -> Q) l a :
  fold_left (fun acc x => if m x then acc + f x else acc) l a =
  fold_left Qplus (map f (filter m l)) a.
Proof.
  revert a; induction l as [|x l IH]; intros a; simpl; [reflexivity|].
  destruct (m x); simpl; apply IH.
Qed.

Lemma inject_Z_succ k : inject_Z k + 1 = inject_Z (k + 1).
Proof. unfold Qplus, inject_Z; simpl. f_equal. lia. Qed.

Lemma fold_count_filter {A} (m : A -> bool) l k :
  fold_left (fun acc x => if m x then acc + 1 else acc) l (inject_Z k) =
  inject_Z (k + Z.of_nat (length (filter m l))).
Proof.
  revert k; induction l as [|x l IH]; intros k; simpl.
  - f_equal; lia.
  - destruct (m x); simpl.
    + rewrite inject_Z_succ, IH. f_equal; lia.
    + apply IH.
Qed.

(** [data[mask].sum() / float(mask.sum())] is the mean over the filtered
    voxels. *)
Lemma region_mean_spec data u mask :
  shape data = shape u -> region_mean data u mask = spec_mean data u mask.
Proof.
  intros Hsh. unfold region_mean, spec_mean, masked_sum, count. rewrite Hsh.
  rewrite fold_mask_filter.
  pose proof (fold_count_filter (fun x => mask (at_ u x)) (indices (shape u)) 0%Z) as Hc.
  cbv beta in Hc. change (inject_Z 0) with 0 in Hc. rewrite Hc. reflexivity.
Qed.

Lemma fold_left_map_Q {A B C} (f : C -> B -> C) (g : A -> B) l a :
  fold_left f (map g l) a = fold_left (fun acc x => f acc (g x)) l a.
Proof. revert a; induction l as [|x l IH]; intros a; simpl; auto. Qed.

Lemma fold_left_ext_in {A B} (f g : A -> B -> A) l a :
  (forall acc x, In x l -> f acc x = g acc x) -> fold_left f l a = fold_left g l a.
Proof.
  revert a; induction l as [|x l IH]; intros a H; simpl; [reflexivity|].
  rewrite H by (left; reflexivity). apply IH. intros; apply H; right; assumption.
Qed.

(** [np.abs(np.array(np.gradient(u))).sum(0)] is the per-voxel sum of the
    absolute per-axis gradients when [u] has rank 2 or more. *)
Lemma abs_grad_sum_spec u x :
  (2 <= ndim u)%nat -> inb (shape u) x = true ->
  abs_grad_sum (shape u) (map (fun k => tabulate (shape u) (gradient_axis u k)) (seq 0 (ndim u))) x =
  grad_mag u x.
Proof.
  intros Hr Hx. unfold abs_grad_sum, grad_mag.
  replace (Nat.eqb (length (shape u)) 1) with false
    by (symmetry; apply Nat.eqb_neq; unfold ndim in Hr; lia).
  rewrite fold_left_map_Q with (f := fun acc g => acc + Qabs (at_ g x)).
  apply fold_left_ext_in. intros acc k _. rewrite at_tabulate by exact Hx. reflexivity.
Qed.

Lemma gradient_ok u dres :
  gradient u = Ok dres ->
  dres = map (fun k => tabulate (shape u) (gradient_axis u k)) (seq 0 (ndim u)).
Proof.
  unfold gradient. destruct (existsb _ _); [discriminate|]. intros H; injection H; auto.
Qed.

Lemma flt_lt_asym a b : flt_lt a b = true -> flt_lt b a = false.
Proof.
  destruct a, b; simpl; try discriminate; try reflexivity.
  unfold qlt. intros H. apply negb_true_iff in H.
  apply negb_false_iff, Qle_bool_iff.
  apply Qlt_le_weak, Qnot_le_lt. intros H'. apply Qle_bool_iff in H'. congruence.
Qed.

Lemma acwe_commit_eq e res w e' :
  acwe_commit e res (w, e') =
  let '(w', o, r) := smooth (a_smoothing e) res w in
  match r with
  | Ok res' => ((w', acwe_with_u e' res'), o, Ok tt)
  | Raise x => ((w', e'), o, Raise x)
  end.
Proof.
  unfold acwe_commit, bind, on_fst, get, put; cbn [fst snd].
  destruct (smooth _ res w) as [[w' o] [r|x]]; cbn; rewrite ?app_nil_r; reflexivity.
Qed.

(** A step that got past the shape check and the image attachment. *)
Lemma acwe_step_attach w e u res :
  a_u e = Some u -> shape (a_data e) = shape u ->
  acwe_attach (a_lambda1 e) (a_lambda2 e) (a_data e) u = Ok res ->
  acwe_step (w, e) = acwe_commit e res (w, e).
Proof.
  intros Hu Hsh Ha. rewrite acwe_step_eq, Hu, acwe_commit_eq.
  replace (shape_eqb (shape (a_data e)) (shape u)) with true
    by (symmetry; apply shape_eqb_true, Hsh).
  cbn [negb]. rewrite Ha. reflexivity.
Qed.

(** ** Empty partitions *)

Lemma flt_add_nan_r a : flt_add a NaN = NaN.
Proof. destruct a; reflexivity. Qed.

Lemma flt_mul_nan_r a : flt_mul a NaN = NaN.
Proof. destruct a; reflexivity. Qed.

(** A NaN region mean makes [aux] NaN at every voxel. *)
Lemma acwe_aux_nan l1 l2 data c0 c1 g x :
  c0 = NaN \/ c1 = NaN -> acwe_aux l1 l2 data c0 c1 g x = NaN.
Proof.
  intros [-> | ->]; unfold acwe_aux, sq, flt_sub;
    rewrite ?flt_add_nan_r, ?flt_mul_nan_r; cbn [flt_neg];
    rewrite ?flt_add_nan_r, ?flt_mul_nan_r; reflexivity.
Qed.

Lemma filter_none {A} (m : A -> bool) l : (forall x, In x l -> m x = false) -> filter m l = [].
Proof.
  induction l as [|y l IH]; intros H; simpl; [reflexivity|].
  rewrite H by (left; reflexivity). apply IH; intros; apply H; right; assumption.
Qed.

Lemma spec_mean_empty data u sel :
  (forall x, inb (shape u) x = true -> sel (at_ u x) = false) -> spec_mean data u sel = NaN.
Proof.
  intros H. unfold spec_mean. rewrite filter_none; [reflexivity|].
  intros x Hx; apply H, in_indices, Hx.
Qed.

Lemma copy_copy u : copy (copy u) = copy u.
Proof.
  unfold copy at 1. change (shape (copy u)) with (shape u).
  unfold copy. apply tabulate_ext_in. intros x Hx; apply at_tabulate, Hx.
Qed.

Lemma acwe_step_raise_grad w e u x :
  a_u e = Some u -> shape (a_data e) = shape u -> gradient u = Raise x ->
  acwe_step (w, e) = ((w, e), [], Raise x).
Proof.
  intros Hu Hsh Hg. rewrite acwe_step_eq, Hu.
  replace (shape_eqb (shape (a_data e)) (shape u)) with true
    by (symmetry; apply shape_eqb_true, Hsh).
  unfold acwe_attach. rewrite Hg. reflexivity.
Qed.

(** ** The automatic-convergence loop *)

Section AutoConvgFacts.
Context {St : Type} (step : M St unit) (get_u : St -> option ndarray).

Ltac loop_unfold :=
  cbn [autoconvg_loop]; unfold bind, get, ret, raise, tell.

Ltac split_ifs :=
  repeat match goal with |- context [if ?b then _ else _] => destruct b end.

(** Counting the calls of [step]: the counted loop computes what the loop
    computes, calls [step] at most [k] times, and a returned value [n]
    started from [i] means [n - i] calls. *)
Lemma autoconvg_loop_counted k : forall i fn fd s c,
  let '((s', c'), o, r) :=
    autoconvg_loop (counted step) (fun sc => get_u (fst sc)) k i fn fd (s, c) in
  autoconvg_loop step get_u k i fn fd s = (s', o, r) /\ (c' <= c + k)%nat /\
  (forall n, r = Ok n -> (c' + i = c + n)%nat).
Proof.
  induction k as [|k IH]; intros i fn fd s c; loop_unfold.
  - split; [reflexivity|]. split; [lia|]. intros n Hn; injection Hn as <-; lia.
  - change (counted step (s, c)) with (let '(s', o, r) := step s in ((s', S c), o, r)).
    destruct (step s) as [[s1 o1] [[]|x]];
      [|cbn; split; [reflexivity | split; [lia | discriminate]]].
    cbn [fst snd].
    destruct (get_u s1) as [u|]; [|cbn; split; [reflexivity | split; [lia | discriminate]]].
    split_ifs;
      try (cbn; split; [reflexivity | split; [lia | intros n Hn; injection Hn as <-; lia]]);
      match goal with |- context [autoconvg_loop step get_u k ?i' ?fn' ?fd' s1] =>
        specialize (IH i' fn' fd' s1 (S c));
        destruct (autoconvg_loop (counted step) _ k _ _ _ (s1, S c)) as [[[s2 c2] o2] r2];
        destruct IH as (-> & Hc & Hn)
      end;
      (cbn; split; [reflexivity|]; split; [lia|]; intros n Hr; specialize (Hn n Hr); lia).
Qed.

(** A loop that returns before its last iteration has printed the
    convergence message. *)
Lemma autoconvg_loop_early k : forall i fn fd s s' o n,
  autoconvg_loop step get_u k i fn fd s = (s', o, Ok n) -> (n < i + k)%nat ->
  In (Print "Perform the automatic converge") o.
Proof.
  induction k as [|k IH]; intros i fn fd s s' o n; loop_unfold.
  - intros H; injection H as _ _ <-; lia.
  - destruct (step s) as [[s1 o1] [[]|x]]; [|discriminate].
    destruct (get_u s1) as [u|]; [|discriminate].
    split_ifs;
      try (intros H; injection H as _ <- _; intros _;
           apply in_or_app; right; left; reflexivity);
      match goal with |- context [autoconvg_loop step get_u k ?i' ?fn' ?fd' s1] =>
        destruct (autoconvg_loop step get_u k i' fn' fd' s1) as [[s2 o2] r2] eqn:E
      end;
      (intros H; injection H as _ <- ->; intros Hn;
       apply in_or_app; right; eapply IH; [exact E | lia]).
Qed.

(** With a step that never raises and keeps a level set bound, the loop
    returns normally, after at most [k] iterations. *)
Lemma autoconvg_loop_total (V : St -> Prop) :
  (forall s, V s -> exists s' o, step s = (s', o, Ok tt) /\ V s') ->
  (forall s, V s -> get_u s <> None) ->
  forall k i fn fd s, V s ->
  exists s' o n, autoconvg_loop step get_u k i fn fd s = (s', o, Ok n) /\ (n <= i + k)%nat.
Proof.
  intros Hstep Hu k. induction k as [|k IH]; intros i fn fd s Hs; loop_unfold.
  - exists s, [], i; split; [reflexivity | lia].
  - destruct (Hstep s Hs) as (s1 & o1 & Hst & Hs1). rewrite Hst.
    destruct (get_u s1) as [u|] eqn:Eu; [|exfalso; exact (Hu s1 Hs1 Eu)].
    split_ifs;
      try (eexists _, _, _; split; [reflexivity | lia]);
      match goal with |- context [autoconvg_loop step get_u k ?i' ?fn' ?fd' s1] =>
        destruct (IH i' fn' fd' s1 Hs1) as (s2 & o2 & n & E & Hn); rewrite E
      end;
      (eexists _, _, _; split; [reflexivity | lia]).
Qed.
End AutoConvgFacts.

(** ** Steps that cannot fail *)

Lemma curvop_ok u w P :
  buf_ok (m_aux w) -> family (ndim u) = Some P ->
  exists w' r, curvop u w = (w', [], Ok r) /\ shape r = shape u /\ buf_ok (m_aux w').
Proof.
  intros Hw Hf. unfold curvop.
  set (w1 := mk_morph (negb (m_cycle w)) (m_aux w)).
  assert (Hw1 : buf_ok (m_aux w1)) by exact Hw.
  destruct (m_cycle w); unfold ISoSI, SIoIS, bind.
  - rewrite (SI_spec u w1 P Hw1 Hf).
    match goal with |- context [IS ?v ?w2] =>
      assert (Hf2 : family (ndim v) = Some P) by exact Hf;
      assert (Hw2 : buf_ok (m_aux w2)) by (apply buf_ok_layers, Hf);
      rewrite (IS_spec v w2 P Hw2 Hf2) end.
    eexists _, _; split; [reflexivity|]. split; [reflexivity | apply buf_ok_layers, Hf].
  - rewrite (IS_spec u w1 P Hw1 Hf).
    match goal with |- context [SI ?v ?w2] =>
      assert (Hf2 : family (ndim v) = Some P) by exact Hf;
      assert (Hw2 : buf_ok (m_aux w2)) by (apply buf_ok_layers, Hf);
      rewrite (SI_spec v w2 P Hw2 Hf2) end.
    eexists _, _; split; [reflexivity|]. split; [reflexivity | apply buf_ok_layers, Hf].
Qed.

Lemma smooth_ok n : forall u w,
  buf_ok (m_aux w) -> (n = 0%nat \/ exists P, family (ndim u) = Some P) ->
  exists w' o r, smooth n u w = (w', o, Ok r) /\ shape r = shape u /\ buf_ok (m_aux w').
Proof.
  induction n as [|n IH]; intros u w Hw Hn.
  - exists w, [], u; split; [reflexivity | split; [reflexivity | exact Hw]].
  - destruct Hn as [Hn|(P & Hf)]; [discriminate|].
    destruct (curvop_ok u w P Hw Hf) as (w1 & r1 & Hc & Hs1 & Hw1).
    cbn [smooth]. unfold bind at 1. rewrite Hc.
    assert (Hf1 : exists P, family (ndim r1) = Some P)
      by (exists P; unfold ndim; rewrite Hs1; exact Hf).
    destruct (IH r1 w1 Hw1 (or_intror Hf1)) as (w2 & o2 & r2 & E & Hs2 & Hw2).
    rewrite E. exists w2, ([] ++ o2), r2. split; [reflexivity|]. split; [congruence | exact Hw2].
Qed.

Lemma gradient_no_short u :
  (forall n, In n (shape u) -> (2 <= n)%nat) ->
  gradient u = Ok (map (fun k => tabulate (shape u) (gradient_axis u k)) (seq 0 (ndim u))).
Proof.
  intros H. unfold gradient.
  destruct (existsb _ _) eqn:E; [|reflexivity].
  apply existsb_exists in E as (n & Hn & Hlt). apply Nat.ltb_lt in Hlt.
  specialize (H n Hn). lia.
Qed.

(** On a valid state, [MorphACWE.step] returns normally and leaves a valid
    state. *)
Lemma acwe_step_valid s :
  acwe_valid s -> exists s' o, acwe_step s = (s', o, Ok tt) /\ acwe_valid s'.
Proof.
  destruct s as [w e]. intros [Hw (u & Hu & Hsh & Hax & Hr)]; cbn [fst snd] in *.
  pose proof (gradient_no_short u Hax) as Hg.
  set (R := match acwe_attach (a_lambda1 e) (a_lambda2 e) (a_data e) u with
            | Ok r => r | Raise _ => u end).
  assert (Ha : acwe_attach (a_lambda1 e) (a_lambda2 e) (a_data e) u = Ok R)
    by (unfold R, acwe_attach; rewrite Hg; reflexivity).
  assert (HR : shape R = shape u) by (unfold R, acwe_attach; rewrite Hg; reflexivity).
  rewrite (acwe_step_attach w e u R Hu (eq_sym Hsh) Ha), acwe_commit_eq.
  assert (Hn : a_smoothing e = 0%nat \/ exists P, family (ndim R) = Some P).
  { destruct Hr as [H0 | Hr]; [left; exact H0 | right].
    unfold ndim; rewrite HR. destruct Hr as [H2 | H3]; unfold ndim in *;
      [rewrite H2 | rewrite H3]; eexists; reflexivity. }
  destruct (smooth_ok (a_smoothing e) R w Hw Hn) as (w' & o & r & E & Hs & Hw').
  rewrite E. eexists _, _; split; [reflexivity|].
  split; [exact Hw'|]. exists r; cbn [snd a_u a_data a_smoothing acwe_with_u].
  split; [reflexivity|]. rewrite Hs, HR. split; [exact Hsh|]. split; [exact Hax|].
  unfold ndim; rewrite Hs, HR; exact Hr.
Qed.

(** ** The output of a run *)

Lemma bind_out {S A B} (m : M S A) (k : A -> M S B) s :
  snd (fst (bind m k s)) =
  match m s with
  | (s1, o1, Ok a) => o1 ++ snd (fst (k a s1))
  | (s1, o1, Raise _) => o1
  end.
Proof.
  unfold bind. destruct (m s) as [[s1 o1] [a|x]]; [|reflexivity].
  destruct (k a s1) as [[s2 o2] r]; reflexivity.
Qed.

(* ================================================================== *)
(** * The claims *)

(** C5: for a rank-2 or rank-3 array [u], [SI(u)] is, voxel by voxel, the
    maximum (logical OR) of the erosions of [u] by each element of the
    family [_P2] (4 elements) or [_P3] (9 elements), and [IS(u)] the
    minimum (logical AND) of the dilations; for any other rank both raise
    the dimensionality [ValueError] and leave the module state unchanged.
    The module buffer [_aux] may be any buffer these functions leave. *)
Theorem SI_IS_contract (u : ndarray) (w : morph) :
  buf_ok (m_aux w) ->
  ((ndim u = 2%nat \/ ndim u = 3%nat) ->
   exists P, family (ndim u) = Some P /\
     length P = (if Nat.eqb (ndim u) 2 then 4%nat else 9%nat) /\
     (exists w1, SI u w =
        (w1, [], Ok (tabulate (shape u) (fun x => b2q (existsb (fun st => erosion u st x) P))))) /\
     (exists w2, IS u w =
        (w2, [], Ok (tabulate (shape u) (fun x => b2q (forallb (fun st => dilation u st x) P)))))) /\
  ((ndim u <> 2%nat /\ ndim u <> 3%nat) ->
   SI u w = (w, [], Raise (ValueError "u has an invalid number of dimensions (should be 2 or 3)")) /\
   IS u w = (w, [], Raise (ValueError "u has an invalid number of dimensions (should be 2 or 3)"))).
Proof.
  intros Hw; split.
  - intros Hr.
    assert (Hf : exists P, family (ndim u) = Some P /\
                   length P = (if Nat.eqb (ndim u) 2 then 4%nat else 9%nat))
      by (destruct Hr as [-> | ->]; eexists; split; reflexivity).
    destruct Hf as (P & Hf & Hl). exists P; repeat split; [exact Hf | exact Hl | |].
    + eexists; apply (SI_spec u w P Hw Hf).
    + eexists; apply (IS_spec u w P Hw Hf).
  - intros [H2 H3].
    assert (Hf : family (ndim u) = None)
      by (destruct (ndim u) as [|[|[|[|r]]]]; try reflexivity; congruence).
    split; [apply multi_op_bad_rank | apply multi_op_bad_rank]; exact Hf.
Qed.

Lemma SI_IS_contract_witness :
  buf_ok (m_aux morph0) /\
  ((ndim (of_rows3 [[0;1;0];[1;1;1];[0;1;0]]) = 2%nat \/
    ndim (of_rows3 [[0;1;0];[1;1;1];[0;1;0]]) = 3%nat) ->
   exists P, family (ndim (of_rows3 [[0;1;0];[1;1;1];[0;1;0]])) = Some P /\
     length P = (if Nat.eqb (ndim (of_rows3 [[0;1;0];[1;1;1];[0;1;0]])) 2 then 4%nat else 9%nat) /\
     (exists w1, SI (of_rows3 [[0;1;0];[1;1;1];[0;1;0]]) morph0 =
        (w1, [], Ok (tabulate [3%nat; 3%nat] (fun x =>
           b2q (existsb (fun st => erosion (of_rows3 [[0;1;0];[1;1;1];[0;1;0]]) st x) P))))) /\
     (exists w2, IS (of_rows3 [[0;1;0];[1;1;1];[0;1;0]]) morph0 =
        (w2, [], Ok (tabulate [3%nat; 3%nat] (fun x =>
           b2q (forallb (fun st => dilation (of_rows3 [[0;1;0];[1;1;1];[0;1;0]]) st x) P)))))) /\
  ((ndim (of_rows3 [[0;1;0];[1;1;1];[0;1;0]]) <> 2%nat /\
    ndim (of_rows3 [[0;1;0];[1;1;1];[0;1;0]]) <> 3%nat) ->
   SI (of_rows3 [[0;1;0];[1;1;1];[0;1;0]]) morph0 =
     (morph0, [], Raise (ValueError "u has an invalid number of dimensions (should be 2 or 3)")) /\
   IS (of_rows3 [[0;1;0];[1;1;1];[0;1;0]]) morph0 =
     (morph0, [], Raise (ValueError "u has an invalid number of dimensions (should be 2 or 3)"))).
Proof.
  split; [left; reflexivity|].
  apply (SI_IS_contract (of_rows3 [[0;1;0];[1;1;1];[0;1;0]]) morph0).
  left; reflexivity.
Defined.

(** C7: [step] of [MorphACWE] and of [MorphGAC], called while no level set
    is bound ([self._u is None]), raises the unset-level-set [ValueError]
    and returns the evolver and the module state unchanged. *)
Theorem step_unset_levelset (w : morph) (e : acwe) (g : gac) :
  a_u e = None -> g_u g = None ->
  acwe_step (w, e) =
    ((w, e), [], Raise (ValueError "the levelset function is not set (use set_levelset)")) /\
  gac_step (w, g) =
    ((w, g), [], Raise (ValueError "the levelset is not set (use set_levelset)")).
Proof.
  intros He Hg; split.
  - rewrite acwe_step_eq, He; reflexivity.
  - rewrite gac_step_eq, Hg; reflexivity.
Qed.

Lemma step_unset_levelset_witness :
  a_u (acwe_init (of_rows3 [[0;0;0];[0;1;0];[0;0;0]]) 1 1 1) = None /\
  g_u (mk_gac None 1 0 1 (of_rows3 [[0;0;0];[0;1;0];[0;0;0]]) [] (zeros []) (zeros [])
         (zeros [])) = None /\
  acwe_step (morph0, acwe_init (of_rows3 [[0;0;0];[0;1;0];[0;0;0]]) 1 1 1) =
    ((morph0, acwe_init (of_rows3 [[0;0;0];[0;1;0];[0;0;0]]) 1 1 1), [],
     Raise (ValueError "the levelset function is not set (use set_levelset)")) /\
  gac_step (morph0, mk_gac None 1 0 1 (of_rows3 [[0;0;0];[0;1;0];[0;0;0]]) [] (zeros [])
                      (zeros []) (zeros [])) =
    ((morph0, mk_gac None 1 0 1 (of_rows3 [[0;0;0];[0;1;0];[0;0;0]]) [] (zeros [])
                (zeros []) (zeros [])), [],
     Raise (ValueError "the levelset is not set (use set_levelset)")).
Proof.
  split; [reflexivity|]. split; [reflexivity|].
  apply step_unset_levelset; reflexivity.
Defined.

(** C9 (counterexample): two [MorphACWE] objects with the same volume,
    level set, [lambda1] and [lambda2], stepped from the same [curvop]
    phase, reach different next level sets when their [smoothing] differs
    (0 and 1 here): the centre voxel stays 1 without smoothing and becomes
    0 after one [curvop]. *)
Lemma acwe_step_phase_counterexample :
  let data := of_rows3 [[0;0;0];[0;1;0];[0;0;0]] in
  let e0 := acwe_with_u (acwe_init data 0 1 1) data in
  let e1 := acwe_with_u (acwe_init data 1 1 1) data in
  a_data e0 = a_data e1 /\ a_u e0 = a_u e1 /\
  a_lambda1 e0 = a_lambda1 e1 /\ a_lambda2 e0 = a_lambda2 e1 /\
  option_map (fun u => at_ u [1%nat; 1%nat]) (a_u (snd (fst (fst (acwe_step (morph0, e0)))))) = Some 1 /\
  option_map (fun u => at_ u [1%nat; 1%nat]) (a_u (snd (fst (fst (acwe_step (morph0, e1)))))) = Some 0.
Proof. vm_compute; repeat split; reflexivity. Qed.

(** C9 (amended): [MorphACWE.step] is deterministic in the volume, the
    level set, [lambda1], [lambda2], [smoothing] (all fields of the
    evolver) and the [curvop] phase: from any two reachable [_aux]
    buffers, two calls produce the same next evolver (hence the same next
    level set), the same next phase, the same output and the same outcome. *)
Theorem acwe_step_deterministic (w1 w2 : morph) (e : acwe) :
  m_cycle w1 = m_cycle w2 -> buf_ok (m_aux w1) -> buf_ok (m_aux w2) ->
  let '(s1, o1, r1) := acwe_step (w1, e) in
  let '(s2, o2, r2) := acwe_step (w2, e) in
  a_u (snd s1) = a_u (snd s2) /\ snd s1 = snd s2 /\
  m_cycle (fst s1) = m_cycle (fst s2) /\ o1 = o2 /\ r1 = r2.
Proof.
  intros Hc H1 H2. rewrite !acwe_step_eq.
  destruct (a_u e) as [u|]; [|simpl; auto].
  destruct (negb _); [simpl; auto|].
  destruct (acwe_attach _ _ _ _) as [res|x]; [|simpl; auto].
  pose proof (smooth_rel (a_smoothing e) res w1 w2 (conj Hc (conj H1 H2))) as Hs.
  destruct (smooth _ res w1) as [[t1 o1] r1], (smooth _ res w2) as [[t2 o2] r2].
  destruct Hs as ((Hc' & _ & _) & <- & <-).
  destruct r1; simpl; auto.
Qed.

Lemma acwe_step_deterministic_witness :
  m_cycle morph0 = m_cycle (mk_morph false (zeros [4%nat; 3%nat; 3%nat])) /\
  buf_ok (m_aux morph0) /\ buf_ok (m_aux (mk_morph false (zeros [4%nat; 3%nat; 3%nat]))) /\
  let '(s1, o1, r1) :=
    acwe_step (morph0, acwe_with_u (acwe_init (of_rows3 [[0;0;0];[0;1;0];[0;0;0]]) 1 1 1)
                                   (of_rows3 [[0;0;0];[0;1;0];[0;0;0]])) in
  let '(s2, o2, r2) :=
    acwe_step (mk_morph false (zeros [4%nat; 3%nat; 3%nat]),
               acwe_with_u (acwe_init (of_rows3 [[0;0;0];[0;1;0];[0;0;0]]) 1 1 1)
                           (of_rows3 [[0;0;0];[0;1;0];[0;0;0]])) in
  a_u (snd s1) = a_u (snd s2) /\ snd s1 = snd s2 /\
  m_cycle (fst s1) = m_cycle (fst s2) /\ o1 = o2 /\ r1 = r2.
Proof.
  split; [reflexivity|]. split; [left; reflexivity|]. split.
  - right. exists P2. split; reflexivity.
  - apply acwe_step_deterministic; [reflexivity | left; reflexivity |].
    right. exists P2. split; reflexivity.
Defined.

(** C8: [set_levelset(u)] stores an array of the shape of [u] that is
    exactly 1 where [u > 0] and exactly 0 where [u <= 0]; after it, any
    number of [step] calls of [MorphACWE] ([run(n)]) or of [MorphGAC] leaves
    a level set whose entries all lie in {0, 1}, also when a step raises.
    The module buffer [_aux] may be any buffer SI/IS leave. *)
Theorem levelset_binary (u : ndarray) (n : nat) (w : morph) (e : acwe) (g : gac) :
  buf_ok (m_aux w) ->
  shape (levelset_of u) = shape u /\
  (forall x, inb (shape u) x = true ->
     (0 < at_ u x -> at_ (levelset_of u) x = 1) /\
     (at_ u x <= 0 -> at_ (levelset_of u) x = 0)) /\
  (let '(s, _, _) := acwe_run n (w, acwe_set_levelset u e) in
   exists v, a_u (snd s) = Some v /\ binary v) /\
  (let '(s, _, _) := gac_run n (w, gac_set_levelset u g) in
   exists v, g_u (snd s) = Some v /\ binary v).
Proof.
  intros Hw. split; [reflexivity|]. split; [|split].
  - intros x Hx. rewrite levelset_of_at by exact Hx. unfold qlt. split; intros H.
    + destruct (Qle_bool (at_ u x) 0) eqn:E; [|reflexivity].
      apply Qle_bool_iff in E. exfalso; apply (Qlt_not_le _ _ H E).
    + apply Qle_bool_iff in H. rewrite H. reflexivity.
  - assert (Hi : acwe_inv (w, acwe_set_levelset u e))
      by (split; [exact Hw | exists (levelset_of u); split; [reflexivity | apply levelset_of_binary]]).
    pose proof (acwe_run_inv n _ Hi) as H.
    destruct (acwe_run n _) as [[s o] r]. destruct H as [[_ Hs] _]. exact Hs.
  - assert (Hi : gac_inv (w, gac_set_levelset u g))
      by (split; [exact Hw | exists (levelset_of u); split; [reflexivity | apply levelset_of_binary]]).
    pose proof (gac_run_inv n _ Hi) as H.
    destruct (gac_run n _) as [[s o] r]. destruct H as [[_ Hs] _]. exact Hs.
Qed.

Lemma levelset_binary_witness :
  buf_ok (m_aux morph0) /\
  shape (levelset_of (of_rows3 [[0;2;0];[0;(-1);3];[0;0;0]])) =
    shape (of_rows3 [[0;2;0];[0;(-1);3];[0;0;0]]) /\
  (forall x, inb (shape (of_rows3 [[0;2;0];[0;(-1);3];[0;0;0]])) x = true ->
     (0 < at_ (of_rows3 [[0;2;0];[0;(-1);3];[0;0;0]]) x ->
        at_ (levelset_of (of_rows3 [[0;2;0];[0;(-1);3];[0;0;0]])) x = 1) /\
     (at_ (of_rows3 [[0;2;0];[0;(-1);3];[0;0;0]]) x <= 0 ->
        at_ (levelset_of (of_rows3 [[0;2;0];[0;(-1);3];[0;0;0]])) x = 0)) /\
  (let '(s, _, _) := acwe_run 2 (morph0, acwe_set_levelset (of_rows3 [[0;2;0];[0;(-1);3];[0;0;0]])
                                          (acwe_init (of_rows3 [[1;1;0];[0;1;0];[0;0;0]]) 1 1 1)) in
   exists v, a_u (snd s) = Some v /\ binary v) /\
  (let '(s, _, _) := gac_run 2 (morph0, gac_set_levelset (of_rows3 [[0;2;0];[0;(-1);3];[0;0;0]])
                                          (mk_gac None 1 0 1 (of_rows3 [[1;1;0];[0;1;0];[0;0;0]]) []
                                                  (zeros []) (zeros []) (zeros []))) in
   exists v, g_u (snd s) = Some v /\ binary v).
Proof.
  split; [left; reflexivity|].
  apply (levelset_binary (of_rows3 [[0;2;0];[0;(-1);3];[0;0;0]]) 2 morph0
           (acwe_init (of_rows3 [[1;1;0];[0;1;0];[0;0;0]]) 1 1 1)
           (mk_gac None 1 0 1 (of_rows3 [[1;1;0];[0;1;0];[0;0;0]]) [] (zeros []) (zeros []) (zeros []))).
  left; reflexivity.
Defined.

(** C4: one [MorphACWE.step] on a 2-D or 3-D level set [u] of the shape
    of the volume.  If [np.gradient(u)] raises, the step raises with
    nothing changed.  Otherwise it computes the level set [res] that is 1
    where the energy [aux] is negative, 0 where it is positive and [u]
    elsewhere (where [aux = 0]), with [aux = |grad u| * (lambda1*(data -
    c1)^2 - lambda2*(data - c0)^2)], [c0] and [c1] the mean intensities over
    the outside ([u <= 0]) and inside ([u > 0]) voxels and [|grad u|] the
    per-voxel sum of the absolute per-axis gradients ([spec_energy]); it
    then applies the curvature operator [smoothing] times and stores the
    result ([acwe_commit]). *)
Theorem acwe_step_contract (w : morph) (e : acwe) (u : ndarray) :
  a_u e = Some u -> shape (a_data e) = shape u -> (ndim u = 2%nat \/ ndim u = 3%nat) ->
  match gradient u with
  | Raise x => acwe_step (w, e) = ((w, e), [], Raise x)
  | Ok _ =>
      exists res, shape res = shape u /\
        (forall x, inb (shape u) x = true ->
           let aux := spec_energy (a_lambda1 e) (a_lambda2 e) (a_data e) u x in
           (flt_lt aux (Fin 0) = true -> at_ res x = 1) /\
           (flt_gt aux (Fin 0) = true -> at_ res x = 0) /\
           (aux = Fin 0 -> at_ res x = at_ u x) /\
           (flt_lt aux (Fin 0) = false -> flt_gt aux (Fin 0) = false -> at_ res x = at_ u x)) /\
        acwe_step (w, e) = acwe_commit e res (w, e)
  end.
Proof.
  intros Hu Hsh Hr.
  assert (Hr2 : (2 <= ndim u)%nat) by (destruct Hr as [-> | ->]; lia).
  destruct (gradient u) as [dres|x] eqn:Hg.
  - pose proof (gradient_ok _ _ Hg) as Hd.
    set (A := acwe_aux (a_lambda1 e) (a_lambda2 e) (a_data e)
                (region_mean (a_data e) u outside_q) (region_mean (a_data e) u inside_q)
                (abs_grad_sum (shape u) dres)).
    set (R := masked_set (masked_set (copy u) (fun x => flt_lt (A x) (Fin 0)) 1)
                         (fun x => flt_gt (A x) (Fin 0)) 0).
    assert (Ha : acwe_attach (a_lambda1 e) (a_lambda2 e) (a_data e) u = Ok R)
      by (unfold acwe_attach; rewrite Hg; reflexivity).
    exists R; split; [reflexivity | split; [| exact (acwe_step_attach w e u R Hu Hsh Ha)]].
    intros x Hx.
    assert (HA : A x = spec_energy (a_lambda1 e) (a_lambda2 e) (a_data e) u x).
    { unfold A, acwe_aux, spec_energy.
      rewrite !region_mean_spec by exact Hsh. rewrite Hd, abs_grad_sum_spec by assumption.
      reflexivity. }
    assert (HR : at_ R x = if flt_gt (A x) (Fin 0) then 0
                           else if flt_lt (A x) (Fin 0) then 1 else at_ u x).
    { unfold R, masked_set, copy. rewrite !shape_tabulate. rewrite !at_tabulate by exact Hx.
      reflexivity. }
    rewrite HR, HA. cbv zeta. unfold flt_gt.
    repeat split.
    + intros H. rewrite (flt_lt_asym _ _ H), H. reflexivity.
    + intros H. rewrite H. reflexivity.
    + intros ->. reflexivity.
    + intros H1 H2. rewrite H1, H2. reflexivity.
  - rewrite acwe_step_eq, Hu.
    replace (shape_eqb (shape (a_data e)) (shape u)) with true
      by (symmetry; apply shape_eqb_true, Hsh).
    unfold acwe_attach. rewrite Hg. reflexivity.
Qed.

Lemma acwe_step_contract_witness :
  a_u (acwe_with_u (acwe_init (of_rows3 [[1;1;0];[0;1;0];[0;0;0]]) 1 1 1)
                   (of_rows3 [[0;1;0];[0;1;0];[0;0;0]])) = Some (of_rows3 [[0;1;0];[0;1;0];[0;0;0]]) /\
  shape (of_rows3 [[1;1;0];[0;1;0];[0;0;0]]) = shape (of_rows3 [[0;1;0];[0;1;0];[0;0;0]]) /\
  (ndim (of_rows3 [[0;1;0];[0;1;0];[0;0;0]]) = 2%nat \/ ndim (of_rows3 [[0;1;0];[0;1;0];[0;0;0]]) = 3%nat) /\
  match gradient (of_rows3 [[0;1;0];[0;1;0];[0;0;0]]) with
  | Raise x => acwe_step (morph0, acwe_with_u (acwe_init (of_rows3 [[1;1;0];[0;1;0];[0;0;0]]) 1 1 1)
                                             (of_rows3 [[0;1;0];[0;1;0];[0;0;0]])) =
               ((morph0, acwe_with_u (acwe_init (of_rows3 [[1;1;0];[0;1;0];[0;0;0]]) 1 1 1)
                                     (of_rows3 [[0;1;0];[0;1;0];[0;0;0]])), [], Raise x)
  | Ok _ =>
      exists res, shape res = shape (of_rows3 [[0;1;0];[0;1;0];[0;0;0]]) /\
        (forall x, inb (shape (of_rows3 [[0;1;0];[0;1;0];[0;0;0]])) x = true ->
           let aux := spec_energy 1 1 (of_rows3 [[1;1;0];[0;1;0];[0;0;0]])
                                  (of_rows3 [[0;1;0];[0;1;0];[0;0;0]]) x in
           (flt_lt aux (Fin 0) = true -> at_ res x = 1) /\
           (flt_gt aux (Fin 0) = true -> at_ res x = 0) /\
           (aux = Fin 0 -> at_ res x = at_ (of_rows3 [[0;1;0];[0;1;0];[0;0;0]]) x) /\
           (flt_lt aux (Fin 0) = false -> flt_gt aux (Fin 0) = false ->
            at_ res x = at_ (of_rows3 [[0;1;0];[0;1;0];[0;0;0]]) x)) /\
        acwe_step (morph0, acwe_with_u (acwe_init (of_rows3 [[1;1;0];[0;1;0];[0;0;0]]) 1 1 1)
                                       (of_rows3 [[0;1;0];[0;1;0];[0;0;0]])) =
        acwe_commit (acwe_with_u (acwe_init (of_rows3 [[1;1;0];[0;1;0];[0;0;0]]) 1 1 1)
                                 (of_rows3 [[0;1;0];[0;1;0];[0;0;0]])) res
          (morph0, acwe_with_u (acwe_init (of_rows3 [[1;1;0];[0;1;0];[0;0;0]]) 1 1 1)
                               (of_rows3 [[0;1;0];[0;1;0];[0;0;0]]))
  end.
Proof.
  split; [reflexivity|]. split; [reflexivity|]. split; [left; reflexivity|].
  apply (acwe_step_contract morph0
           (acwe_with_u (acwe_init (of_rows3 [[1;1;0];[0;1;0];[0;0;0]]) 1 1 1)
                        (of_rows3 [[0;1;0];[0;1;0];[0;0;0]]))
           (of_rows3 [[0;1;0];[0;1;0];[0;0;0]])); [reflexivity | reflexivity | left; reflexivity].
Defined.

(** C1 (counterexample): [MorphACWE.step] on an all-zero 3x3 level set
    (no inside voxel) raises nothing: the inside mean [c1] is 0/0 = NaN
    and the step completes normally. *)
Lemma acwe_step_empty_partition_counterexample :
  let data := of_rows3 [[0;0;0];[0;1;0];[0;0;0]] in
  let z := of_rows3 [[0;0;0];[0;0;0];[0;0;0]] in
  region_mean data z inside_q = NaN /\
  snd (acwe_step (morph0, acwe_with_u (acwe_init data 1 1 1) z)) = Ok tt.
Proof. vm_compute; split; reflexivity. Qed.

(** C1 (amended): when the level set [u] has no inside voxel (all
    [u <= 0]) or no outside voxel (all [u > 0]), [MorphACWE.step] raises
    no error of its own: the mean of the empty side is NaN, so [aux] is NaN
    everywhere, the image attachment keeps [u] unchanged, and the step
    (unless [np.gradient] raises) only smooths [u] [smoothing] times and
    stores it. *)
Theorem acwe_step_degenerate (w : morph) (e : acwe) (u : ndarray) :
  a_u e = Some u -> shape (a_data e) = shape u ->
  ((forall x, inb (shape u) x = true -> at_ u x <= 0) \/
   (forall x, inb (shape u) x = true -> 0 < at_ u x)) ->
  (region_mean (a_data e) u inside_q = NaN \/ region_mean (a_data e) u outside_q = NaN) /\
  acwe_step (w, e) =
  match gradient u with
  | Raise x => ((w, e), [], Raise x)
  | Ok _ => acwe_commit e (copy u) (w, e)
  end.
Proof.
  intros Hu Hsh Hp.
  assert (Hn : region_mean (a_data e) u inside_q = NaN \/
               region_mean (a_data e) u outside_q = NaN).
  { rewrite !region_mean_spec by exact Hsh.
    destruct Hp as [Hp|Hp]; [left|right]; apply spec_mean_empty; intros x Hx;
      specialize (Hp x Hx); unfold inside_q, outside_q, qlt.
    - apply Qle_bool_iff in Hp. rewrite Hp. reflexivity.
    - destruct (Qle_bool (at_ u x) 0) eqn:E; [|reflexivity].
      apply Qle_bool_iff in E. exfalso; apply (Qlt_not_le _ _ Hp E). }
  split; [exact Hn|].
  destruct (gradient u) as [dres|x] eqn:Hg; [|apply (acwe_step_raise_grad w e u x); assumption].
  apply (acwe_step_attach w e u); [exact Hu | exact Hsh|].
  unfold acwe_attach; rewrite Hg. f_equal.
  set (v := copy u). transitivity (copy v); [|apply copy_copy].
  unfold masked_set, copy. rewrite !shape_tabulate.
  apply tabulate_ext_in; intros x Hx. rewrite at_tabulate by exact Hx.
  rewrite acwe_aux_nan by (destruct Hn; [right|left]; assumption).
  reflexivity.
Qed.

Lemma acwe_step_degenerate_witness :
  a_u (acwe_with_u (acwe_init (of_rows3 [[0;0;0];[0;1;0];[0;0;0]]) 1 1 1)
                   (of_rows3 [[0;0;0];[0;0;0];[0;0;0]])) = Some (of_rows3 [[0;0;0];[0;0;0];[0;0;0]]) /\
  shape (of_rows3 [[0;0;0];[0;1;0];[0;0;0]]) = shape (of_rows3 [[0;0;0];[0;0;0];[0;0;0]]) /\
  ((forall x, inb (shape (of_rows3 [[0;0;0];[0;0;0];[0;0;0]])) x = true ->
              at_ (of_rows3 [[0;0;0];[0;0;0];[0;0;0]]) x <= 0) \/
   (forall x, inb (shape (of_rows3 [[0;0;0];[0;0;0];[0;0;0]])) x = true ->
              0 < at_ (of_rows3 [[0;0;0];[0;0;0];[0;0;0]]) x)) /\
  (region_mean (of_rows3 [[0;0;0];[0;1;0];[0;0;0]]) (of_rows3 [[0;0;0];[0;0;0];[0;0;0]]) inside_q = NaN \/
   region_mean (of_rows3 [[0;0;0];[0;1;0];[0;0;0]]) (of_rows3 [[0;0;0];[0;0;0];[0;0;0]]) outside_q = NaN) /\
  acwe_step (morph0, acwe_with_u (acwe_init (of_rows3 [[0;0;0];[0;1;0];[0;0;0]]) 1 1 1)
                                 (of_rows3 [[0;0;0];[0;0;0];[0;0;0]])) =
  match gradient (of_rows3 [[0;0;0];[0;0;0];[0;0;0]]) with
  | Raise x => ((morph0, acwe_with_u (acwe_init (of_rows3 [[0;0;0];[0;1;0];[0;0;0]]) 1 1 1)
                                     (of_rows3 [[0;0;0];[0;0;0];[0;0;0]])), [], Raise x)
  | Ok _ => acwe_commit (acwe_with_u (acwe_init (of_rows3 [[0;0;0];[0;1;0];[0;0;0]]) 1 1 1)
                                     (of_rows3 [[0;0;0];[0;0;0];[0;0;0]]))
              (copy (of_rows3 [[0;0;0];[0;0;0];[0;0;0]]))
              (morph0, acwe_with_u (acwe_init (of_rows3 [[0;0;0];[0;1;0];[0;0;0]]) 1 1 1)
                                   (of_rows3 [[0;0;0];[0;0;0];[0;0;0]]))
  end.
Proof.
  assert (Hz : forall x, inb (shape (of_rows3 [[0;0;0];[0;0;0];[0;0;0]])) x = true ->
                         at_ (of_rows3 [[0;0;0];[0;0;0];[0;0;0]]) x <= 0).
  { intros x Hx. unfold of_rows3. rewrite at_tabulate by exact Hx.
    destruct x as [|i [|j [|k x]]]; try (vm_compute; discriminate);
      cbn [inb] in Hx; apply andb_prop in Hx as [Hi Hx]; apply andb_prop in Hx as [Hj _];
      apply Nat.ltb_lt in Hi, Hj;
      destruct i as [|[|[|i]]]; try lia; destruct j as [|[|[|j]]]; try lia;
      vm_compute; discriminate. }
  split; [reflexivity|]. split; [reflexivity|]. split; [left; exact Hz|].
  apply (acwe_step_degenerate morph0
           (acwe_with_u (acwe_init (of_rows3 [[0;0;0];[0;1;0];[0;0;0]]) 1 1 1)
                        (of_rows3 [[0;0;0];[0;0;0];[0;0;0]]))
           (of_rows3 [[0;0;0];[0;0;0];[0;0;0]])); [reflexivity | reflexivity | left; exact Hz].
Defined.

(** C10: with balloon strength [nu = 0], [_update_mask] evaluates
    [threshold/np.abs(0)] without a guard: the quotient is non-finite
    (+inf, -inf, or NaN for a zero threshold), and it is what the second
    mask [data > threshold/|nu|] compares against.  This holds for
    [set_balloon(0)] on any evolver, and for the constructor with
    [balloon = 0], which raises exactly when it raises with [balloon = 1]
    (that is, when [np.gradient(data)] raises), never because of [nu = 0]. *)
Theorem balloon_zero_unguarded (g : gac) (data : ndarray) (smoothing : nat) (theta : Q) :
  flt_finite (balloon_level theta 0) = false /\
  g_mask_v (gac_set_balloon 0 g) =
    tabulate (shape (g_data g))
      (fun x => b2q (flt_gt (Fin (at_ (g_data g) x)) (balloon_level (g_theta g) 0))) /\
  match gac_init data smoothing theta 0 with
  | Ok g' => g_v g' = 0 /\
             g_mask_v g' = tabulate (shape data)
                             (fun x => b2q (flt_gt (Fin (at_ data x)) (balloon_level theta 0)))
  | Raise x => gac_init data smoothing theta 1 = Raise x /\ gradient data = Raise x
  end.
Proof.
  split; [|split; [reflexivity|]].
  - unfold balloon_level, flt_abs, flt_div. cbn [Qabs Qeq_bool].
    destruct (qsign theta) as [|p|p]; reflexivity.
  - unfold gac_init, gac_set_data. destruct (gradient data) as [dd|x]; cbn.
    + split; reflexivity.
    + split; reflexivity.
Qed.

(** C6: [MorphACWE.autoconvg] calls [step] at most 200 times from any
    state: the run instrumented with a step counter computes the same as
    the plain run and counts at most 200 calls, and a normal return
    reports exactly the number of calls.  From a state on which [step]
    can run ([acwe_valid]: a bound level set of the volume's shape, no
    axis shorter than 2, a rank the curvature operator accepts), the loop
    returns normally after at most 200 steps: either early, after the
    convergence message, or at the cap of 200, which is no error. *)
Theorem autoconvg_capped (s : morph * acwe) :
  (let '((s', c), o, r) :=
     autoconvg (counted acwe_step) (fun sc => a_u (snd (fst sc))) (s, 0%nat) in
   (c <= 200)%nat /\ acwe_autoconvg s = (s', o, r) /\ (forall n, r = Ok n -> n = c)) /\
  (acwe_valid s ->
   exists s' o n, acwe_autoconvg s = (s', o, Ok n) /\ (n <= 200)%nat /\
     ((n < 200)%nat -> In (Print "Perform the automatic converge") o)).
Proof.
  split.
  - pose proof (autoconvg_loop_counted acwe_step (fun s => a_u (snd s)) 200 0
                  (fun _ => 0) (fun _ => 0) s 0) as H.
    cbv beta in H. unfold autoconvg, acwe_autoconvg, autoconvg, iterations.
    destruct (autoconvg_loop (counted acwe_step) _ _ _ _ _ (s, 0%nat)) as [[[s' c] o] r].
    destruct H as (H & Hc & Hn). split; [lia|]. split; [exact H|].
    intros n Hr. specialize (Hn n Hr). lia.
  - intros Hv.
    assert (HU : forall s0, acwe_valid s0 -> a_u (snd s0) <> None)
      by (intros s0 (_ & u & Hu & _); rewrite Hu; discriminate).
    destruct (autoconvg_loop_total acwe_step (fun s => a_u (snd s)) acwe_valid
                acwe_step_valid HU 200 0 (fun _ => 0) (fun _ => 0) s Hv)
      as (s' & o & n & E & Hn).
    exists s', o, n. unfold acwe_autoconvg, autoconvg, iterations.
    split; [exact E|]. split; [lia|].
    intros Hlt. eapply autoconvg_loop_early; [exact E | lia].
Qed.

Lemma autoconvg_capped_witness :
  acwe_valid (morph0, acwe_with_u (acwe_init (of_rows3 [[0;0;0];[0;1;0];[0;0;0]]) 1 1 1)
                                  (of_rows3 [[0;1;0];[1;1;1];[0;1;0]])) /\
  (let '((s', c), o, r) :=
     autoconvg (counted acwe_step) (fun sc => a_u (snd (fst sc)))
       ((morph0, acwe_with_u (acwe_init (of_rows3 [[0;0;0];[0;1;0];[0;0;0]]) 1 1 1)
                             (of_rows3 [[0;1;0];[1;1;1];[0;1;0]])), 0%nat) in
   (c <= 200)%nat /\
   acwe_autoconvg (morph0, acwe_with_u (acwe_init (of_rows3 [[0;0;0];[0;1;0];[0;0;0]]) 1 1 1)
                                       (of_rows3 [[0;1;0];[1;1;1];[0;1;0]])) = (s', o, r) /\
   (forall n, r = Ok n -> n = c)) /\
  (acwe_valid (morph0, acwe_with_u (acwe_init (of_rows3 [[0;0;0];[0;1;0];[0;0;0]]) 1 1 1)
                                   (of_rows3 [[0;1;0];[1;1;1];[0;1;0]])) ->
   exists s' o n,
     acwe_autoconvg (morph0, acwe_with_u (acwe_init (of_rows3 [[0;0;0];[0;1;0];[0;0;0]]) 1 1 1)
                                         (of_rows3 [[0;1;0];[1;1;1];[0;1;0]])) = (s', o, Ok n) /\
     (n <= 200)%nat /\ ((n < 200)%nat -> In (Print "Perform the automatic converge") o)).
Proof.
  split.
  - split; [left; reflexivity|]. exists (of_rows3 [[0;1;0];[1;1;1];[0;1;0]]).
    split; [reflexivity|]. split; [reflexivity|]. split; [|right; left; reflexivity].
    intros n Hn; destruct Hn as [<-|[<-|[]]]; lia.
  - apply autoconvg_capped.
Defined.

(** C2 (code bug): [MorphACWE.autoconvg] does not implement the stated
    rule.  At iteration [i] it sums [forward_diff_store[i-6:i-1]], the 5
    differences before the latest one; and in
    [np.absolute(csd) < 20 | (np.absolute(csd) < 0.1*fn)] the operator [|]
    binds tighter than [<], so the test is [|csd| < (20 | b)] with [b] the
    second comparison: it stops when [|csd| < 20], or when [|csd| < 21] and
    [|csd| < 0.1*fn].  On a 3x134 volume (1 on columns 2..131, 0 elsewhere)
    seeded with columns 12..121, with [smoothing = 0] and
    [lambda1 = lambda2 = 1], the foreground grows by 6 per step from 336
    to 390.  The stated rule (6 latest differences, logical OR) stops after
    8 steps (at [i = 7]: 36 < 0.1*378), while the code runs 13 steps.  The
    window sums and the two tests are shown on their own as well. *)
Lemma autoconvg_window_failing_input :
  let data := tabulate [3%nat; 134%nat] (fun p => match p with
                | [_; j] => if (Nat.leb 2 j && Nat.ltb j 132)%bool then 1 else 0
                | _ => 0 end) in
  let u := tabulate [3%nat; 134%nat] (fun p => match p with
                | [_; j] => if (Nat.leb 12 j && Nat.ltb j 122)%bool then 1 else 0
                | _ => 0 end) in
  let s := (morph0, acwe_set_levelset u (acwe_init data 0 1 1)) in
  snd (acwe_autoconvg s) = Ok 13%nat /\
  snd (autoconvg_claimed acwe_step (fun s => a_u (snd s)) s) = Ok 8%nat /\
  slider (fun _ => 6) 7 = 30 /\ claimed_slider (fun _ => 6) 7 = 36 /\
  stop_test 30 378 = false /\ claimed_stop 30 378 = true.
Proof. vm_compute. repeat split; reflexivity. Qed.

(** C3 (code bug): [soma_detect] writes a file.  For every 3-D image whose
    last axis is not empty, every radius [>= 0] and every seed point, the
    run calls [writetiff3d] on the fixed path [somabox_path] with the
    cropped sub-volume, before the evolution starts. *)
Theorem soma_detect_writes_file (img : ndarray) (n0 n1 n2 : nat) (p0 p1 p2 : Z)
        (somaradius : Q) (smoothing : nat) (l1 l2 : Q) (soma : bool) (iterations : Z)
        (w : morph) :
  shape img = [n0; n1; n2] -> n2 <> 0%nat -> 0 <= somaradius ->
  exists somaimg,
    In (WriteTiff3d somabox_path somaimg)
       (snd (fst (soma_detect img [p0; p1; p2] somaradius smoothing l1 l2 soma iterations w))).
Proof.
  intros Hsh Hn2 Hr. unfold soma_detect. rewrite Hsh.
  replace (Nat.eqb n2 0) with false by (symmetry; apply Nat.eqb_neq, Hn2).
  replace (qlt somaradius 0) with false
    by (unfold qlt; symmetry; apply negb_false_iff, Qle_bool_iff, Hr).
  do 5 (rewrite bind_out; cbv beta iota zeta delta [tell writetiff3d]).
  cbn [app]. eexists. right; right; right; right; left; reflexivity.
Qed.

Lemma soma_detect_writes_file_witness :
  shape (tabulate [3%nat; 3%nat; 3%nat] (fun _ => 100)) = [3%nat; 3%nat; 3%nat] /\
  3%nat <> 0%nat /\ 0 <= 1 /\
  exists somaimg,
    In (WriteTiff3d somabox_path somaimg)
       (snd (fst (soma_detect (tabulate [3%nat; 3%nat; 3%nat] (fun _ => 100)) [1%Z; 1%Z; 1%Z]
                              1 1 1 1 true 0 morph0))).
Proof.
  split; [reflexivity|]. split; [discriminate|]. split; [discriminate|].
  apply (soma_detect_writes_file (tabulate [3%nat; 3%nat; 3%nat] (fun _ => 100)) 3 3 3 1 1 1
           1 1 1 1 true 0 morph0); [reflexivity | discriminate | discriminate].
Defined.

(* ================================================================== *)
(** * Further properties of the code *)

(** ** The centre of the structuring elements *)

Lemma neighbour_centre sh x s :
  inb sh x = true -> neighbour sh x (repeat 1%nat (length sh)) s = Some x.
Proof.
  revert x; induction sh as [|n sh IH]; intros [|i x] H; simpl in *; try discriminate.
  - reflexivity.
  - apply andb_prop in H as [Hi Hx]. apply Nat.ltb_lt in Hi.
    replace (Z.of_nat i + s * 0)%Z with (Z.of_nat i) by lia.
    replace ((0 <=? Z.of_nat i)%Z && (Z.of_nat i <? Z.of_nat n)%Z) with true
      by (symmetry; apply andb_true_iff; split; [apply Z.leb_le | apply Z.ltb_lt]; lia).
    rewrite IH by exact Hx. rewrite Nat2Z.id. reflexivity.
Qed.

Lemma neighbour_inb sh x p s y : neighbour sh x p s = Some y -> inb sh y = true.
Proof.
  revert x p y; induction sh as [|n sh IH]; intros [|i x] [|k p] y; simpl;
    try discriminate.
  - intros H; injection H as <-; reflexivity.
  - destruct ((0 <=? _)%Z && _)%bool eqn:E; [|discriminate].
    destruct (neighbour sh x p s) as [ys|] eqn:En; [|discriminate].
    intros H; injection H as <-. apply andb_prop in E as [E1 E2].
    apply Z.leb_le in E1; apply Z.ltb_lt in E2. simpl.
    apply andb_true_iff; split; [apply Nat.ltb_lt; lia | eapply IH, En].
Qed.

Lemma inb_repeat r : inb (repeat 3%nat r) (repeat 1%nat r) = true.
Proof. induction r as [|r IH]; simpl; [reflexivity | exact IH]. Qed.

Lemma family_centred r P st : family r = Some P -> In st P -> centred r st.
Proof.
  intros Hf Hin. destruct (family_cases r P Hf) as [[-> ->] | [-> ->]].
  - assert (H : forallb (fun st => shape_eqb (shape st) [3%nat; 3%nat] && nonzero (at_ st [1%nat; 1%nat])) P2 = true)
      by (vm_compute; reflexivity).
    rewrite forallb_forall in H. specialize (H st Hin). apply andb_prop in H as [H1 H2].
    split; [apply shape_eqb_true, H1 | exact H2].
  - assert (H : forallb (fun st => shape_eqb (shape st) [3%nat; 3%nat; 3%nat]
                                   && nonzero (at_ st [1%nat; 1%nat; 1%nat])) P3 = true)
      by (vm_compute; reflexivity).
    rewrite forallb_forall in H. specialize (H st Hin). apply andb_prop in H as [H1 H2].
    split; [apply shape_eqb_true, H1 | exact H2].
Qed.

Lemma erosion_centre u st x :
  centred (length (shape u)) st -> inb (shape u) x = true ->
  erosion u st x = true -> nonzero (at_ u x) = true.
Proof.
  intros [Hs Hc] Hx He. unfold erosion in He. rewrite forallb_forall in He.
  specialize (He (repeat 1%nat (length (shape u)))).
  rewrite Hs, Hc, neighbour_centre in He by exact Hx.
  apply He, in_indices, inb_repeat.
Qed.

Lemma dilation_centre u st x :
  centred (length (shape u)) st -> inb (shape u) x = true ->
  nonzero (at_ u x) = true -> dilation u st x = true.
Proof.
  intros [Hs Hc] Hx Hn. unfold dilation. apply existsb_exists.
  exists (repeat 1%nat (length (shape u))). split.
  - rewrite Hs; apply in_indices, inb_repeat.
  - rewrite Hc, neighbour_centre by exact Hx. exact Hn.
Qed.

Lemma nonzero_b2q b : nonzero (b2q b) = b.
Proof. destruct b; reflexivity. Qed.

Lemma Qle_b2q b c : b2q b <= b2q c <-> (b = true -> c = true).
Proof.
  destruct b, c; simpl; split; intros H; try discriminate; try reflexivity;
    try (apply Qle_bool_iff; reflexivity).
  - exfalso; apply Qle_bool_iff in H; discriminate H.
  - specialize (H eq_refl); discriminate.
Qed.

Lemma binary_b2q a x : binary a -> inb (shape a) x = true -> at_ a x = b2q (nonzero (at_ a x)).
Proof. intros Hb Hx. destruct (Hb x Hx) as [-> | ->]; reflexivity. Qed.

(** ** Order and monotonicity of [SI] and [IS] *)

Lemma family_rank u : (ndim u = 2%nat \/ ndim u = 3%nat) -> exists P, family (ndim u) = Some P.
Proof. intros [-> | ->]; eexists; reflexivity. Qed.

Lemma erosion_mono u1 u2 st x :
  shape u1 = shape u2 ->
  (forall y, inb (shape u1) y = true -> nonzero (at_ u1 y) = true -> nonzero (at_ u2 y) = true) ->
  erosion u1 st x = true -> erosion u2 st x = true.
Proof.
  intros Hs Hm. unfold erosion. rewrite <- Hs. rewrite !forallb_forall.
  intros H p Hp. specialize (H p Hp). destruct (nonzero (at_ st p)); [|reflexivity].
  destruct (neighbour (shape u1) x p 1) as [y|] eqn:E; [|discriminate].
  apply Hm; [eapply neighbour_inb, E | exact H].
Qed.

Lemma dilation_mono u1 u2 st x :
  shape u1 = shape u2 ->
  (forall y, inb (shape u1) y = true -> nonzero (at_ u1 y) = true -> nonzero (at_ u2 y) = true) ->
  dilation u1 st x = true -> dilation u2 st x = true.
Proof.
  intros Hs Hm. unfold dilation. rewrite <- Hs. rewrite !existsb_exists.
  intros (p & Hp & H). exists p; split; [exact Hp|].
  apply andb_prop in H as [H1 H2]. rewrite H1; cbn [andb].
  destruct (neighbour (shape u1) x p (-1)) as [y|] eqn:E; [|discriminate].
  apply Hm; [eapply neighbour_inb, E | exact H2].
Qed.

Lemma below_nzle u1 u2 : binary u1 -> binary u2 -> below u1 u2 <-> nzle u1 u2.
Proof.
  intros B1 B2. split; intros [Hs H]; split; auto; intros x Hx.
  - specialize (H x Hx). assert (Hx2 : inb (shape u2) x = true) by (rewrite <- Hs; exact Hx).
    destruct (B1 x Hx) as [E1 | E1]; rewrite E1 in *; [intros C; discriminate C|]. intros _.
    destruct (B2 x Hx2) as [E | E]; rewrite E in *; [|reflexivity].
    exfalso. apply Qle_bool_iff in H. discriminate H.
  - assert (Hx2 : inb (shape u2) x = true) by (rewrite <- Hs; exact Hx).
    rewrite (binary_b2q u1 x B1 Hx), (binary_b2q u2 x B2 Hx2).
    apply Qle_b2q. apply H, Hx.
Qed.

(** Both operators read only the shape and the nonzero set of their
    argument, and preserve the order of nonzero sets. *)
Lemma SI_IS_mono u1 u2 w1 w2 P :
  buf_ok (m_aux w1) -> buf_ok (m_aux w2) -> family (ndim u1) = Some P -> nzle u1 u2 ->
  (exists v1 v2, SI u1 w1 = (mk_morph (m_cycle w1) (tabulate (length P :: shape u1) (layers_of erosion u1 P)), [], Ok v1) /\
                 SI u2 w2 = (mk_morph (m_cycle w2) (tabulate (length P :: shape u2) (layers_of erosion u2 P)), [], Ok v2) /\
                 nzle v1 v2 /\ shape v1 = shape u1) /\
  (exists v1 v2, IS u1 w1 = (mk_morph (m_cycle w1) (tabulate (length P :: shape u1) (layers_of dilation u1 P)), [], Ok v1) /\
                 IS u2 w2 = (mk_morph (m_cycle w2) (tabulate (length P :: shape u2) (layers_of dilation u2 P)), [], Ok v2) /\
                 nzle v1 v2 /\ shape v1 = shape u1).
Proof.
  intros H1 H2 Hf [Hs Hm].
  assert (Hf2 : family (ndim u2) = Some P) by (unfold ndim in *; rewrite <- Hs; exact Hf).
  split.
  - rewrite (SI_spec u1 w1 P H1 Hf), (SI_spec u2 w2 P H2 Hf2).
    eexists _, _; split; [reflexivity|]; split; [reflexivity|]; split; [|reflexivity].
    split; [exact Hs|]. intros y Hy. cbn [shape] in Hy.
    rewrite !at_tabulate by (try rewrite <- Hs; exact Hy). rewrite !nonzero_b2q.
    rewrite !existsb_exists. intros (st & Hin & He). exists st; split; [exact Hin|].
    eapply erosion_mono; [exact Hs | exact Hm | exact He].
  - rewrite (IS_spec u1 w1 P H1 Hf), (IS_spec u2 w2 P H2 Hf2).
    eexists _, _; split; [reflexivity|]; split; [reflexivity|]; split; [|reflexivity].
    split; [exact Hs|]. intros y Hy. cbn [shape] in Hy.
    rewrite !at_tabulate by (try rewrite <- Hs; exact Hy). rewrite !nonzero_b2q.
    rewrite !forallb_forall. intros Ha st Hin.
    eapply dilation_mono; [exact Hs | exact Hm | apply Ha, Hin].
Qed.

Lemma curvop_mono u1 u2 w1 w2 P :
  buf_ok (m_aux w1) -> buf_ok (m_aux w2) -> m_cycle w1 = m_cycle w2 ->
  family (ndim u1) = Some P -> nzle u1 u2 ->
  exists w1' w2' r1 r2,
    curvop u1 w1 = (w1', [], Ok r1) /\ curvop u2 w2 = (w2', [], Ok r2) /\
    nzle r1 r2 /\ shape r1 = shape u1 /\ m_cycle w1' = m_cycle w2' /\
    buf_ok (m_aux w1') /\ buf_ok (m_aux w2').
Proof.
  intros H1 H2 Hc Hf Hle. unfold curvop. rewrite Hc.
  assert (Hf2 : family (ndim u2) = Some P) by (unfold ndim in *; rewrite <- (proj1 Hle); exact Hf).
  set (a1 := mk_morph (negb (m_cycle w2)) (m_aux w1)).
  set (a2 := mk_morph (negb (m_cycle w2)) (m_aux w2)).
  assert (A1 : buf_ok (m_aux a1)) by exact H1.
  assert (A2 : buf_ok (m_aux a2)) by exact H2.
  destruct (SI_IS_mono u1 u2 a1 a2 P A1 A2 Hf Hle)
    as [(s1 & s2 & ES1 & ES2 & Hs & Hsh) (i1 & i2 & EI1 & EI2 & Hi & Hish)].
  destruct (m_cycle w2); unfold ISoSI, SIoIS, bind.
  - rewrite ES1, ES2.
    assert (Hf' : family (ndim s1) = Some P) by (unfold ndim in *; rewrite Hsh; exact Hf).
    destruct (SI_IS_mono s1 s2
                (mk_morph (m_cycle a1) (tabulate (length P :: shape u1) (layers_of erosion u1 P)))
                (mk_morph (m_cycle a2) (tabulate (length P :: shape u2) (layers_of erosion u2 P)))
                P (buf_ok_layers _ _ _ Hf) (buf_ok_layers _ _ _ Hf2)
                Hf' Hs) as [_ (j1 & j2 & EJ1 & EJ2 & Hj & Hjsh)].
    rewrite EJ1, EJ2. eexists _, _, _, _. split; [reflexivity|]. split; [reflexivity|].
    split; [exact Hj|]. split; [congruence|]. split; [reflexivity|].
    split; apply buf_ok_layers; [exact Hf' |].
    unfold ndim in *. rewrite <- (proj1 Hs). exact Hf'.
  - rewrite EI1, EI2.
    assert (Hf' : family (ndim i1) = Some P) by (unfold ndim in *; rewrite Hish; exact Hf).
    destruct (SI_IS_mono i1 i2
                (mk_morph (m_cycle a1) (tabulate (length P :: shape u1) (layers_of dilation u1 P)))
                (mk_morph (m_cycle a2) (tabulate (length P :: shape u2) (layers_of dilation u2 P)))
                P (buf_ok_layers _ _ _ Hf) (buf_ok_layers _ _ _ Hf2)
                Hf' Hi) as [(j1 & j2 & EJ1 & EJ2 & Hj & Hjsh) _].
    rewrite EJ1, EJ2. eexists _, _, _, _. split; [reflexivity|]. split; [reflexivity|].
    split; [exact Hj|]. split; [congruence|]. split; [reflexivity|].
    split; apply buf_ok_layers; [exact Hf' |].
    unfold ndim in *. rewrite <- (proj1 Hi). exact Hf'.
Qed.

Lemma smooth_mono n : forall u1 u2 w1 w2 P,
  buf_ok (m_aux w1) -> buf_ok (m_aux w2) -> m_cycle w1 = m_cycle w2 ->
  family (ndim u1) = Some P -> nzle u1 u2 ->
  exists w1' w2' o1 o2 r1 r2,
    smooth n u1 w1 = (w1', o1, Ok r1) /\ smooth n u2 w2 = (w2', o2, Ok r2) /\ nzle r1 r2.
Proof.
  induction n as [|n IH]; intros u1 u2 w1 w2 P H1 H2 Hc Hf Hle.
  - do 6 eexists. split; [reflexivity|]. split; [reflexivity|]. exact Hle.
  - destruct (curvop_mono u1 u2 w1 w2 P H1 H2 Hc Hf Hle)
      as (a1 & a2 & r1 & r2 & E1 & E2 & Hr & Hsh & Hc' & A1 & A2).
    cbn [smooth]. unfold bind at 1 2. rewrite E1, E2.
    assert (Hf' : family (ndim r1) = Some P) by (unfold ndim in *; rewrite Hsh; exact Hf).
    destruct (IH r1 r2 a1 a2 P A1 A2 Hc' Hf' Hr) as (b1 & b2 & o1 & o2 & q1 & q2 & F1 & F2 & Hq).
    rewrite F1, F2. do 6 eexists. split; [reflexivity|]. split; [reflexivity|]. exact Hq.
Qed.

Lemma binary_of_check a :
  forallb (fun x => qis (at_ a x) 0 || qis (at_ a x) 1) (indices (shape a)) = true -> binary a.
Proof.
  intros H x Hx. rewrite forallb_forall in H. specialize (H x (proj2 (in_indices _ _) Hx)).
  destruct (at_ a x) as [n d]. unfold qis in H; cbn [Qnum Qden] in H.
  apply orb_prop in H as [H|H]; apply andb_prop in H as [H1 H2];
    apply Z.eqb_eq in H1; apply Pos.eqb_eq in H2; subst; [left|right]; reflexivity.
Qed.

(** X1: On a binary level set of rank 2 or 3, with a reachable scratch
    buffer, [SI] and [IS] both return without output or error, [SI] never
    sets a voxel that is not set in [u] and [IS] never clears one that is:
    [SI u <= u <= IS u] pointwise. *)
Theorem SI_IS_order (u : ndarray) (w : morph) :
  buf_ok (m_aux w) -> (ndim u = 2%nat \/ ndim u = 3%nat) -> binary u ->
  exists w1 w2 v1 v2, SI u w = (w1, [], Ok v1) /\ IS u w = (w2, [], Ok v2) /\
    below v1 u /\ below u v2.
Proof.
  intros Hw Hr Hb. destruct (family_rank u Hr) as (P & Hf).
  rewrite (SI_spec u w P Hw Hf), (IS_spec u w P Hw Hf).
  do 4 eexists. split; [reflexivity|]. split; [reflexivity|]. split.
  - apply below_nzle; [apply binary_tabulate_b2q | exact Hb |].
    split; [reflexivity|]. intros x Hx. cbn [shape] in Hx.
    rewrite at_tabulate, nonzero_b2q by exact Hx. rewrite existsb_exists.
    intros (st & Hin & He). eapply erosion_centre; [|exact Hx|exact He].
    apply (family_centred _ P st Hf Hin).
  - apply below_nzle; [exact Hb | apply binary_tabulate_b2q |].
    split; [reflexivity|]. intros x Hx Hn.
    rewrite at_tabulate, nonzero_b2q by exact Hx. rewrite forallb_forall.
    intros st Hin. eapply dilation_centre; [|exact Hx|exact Hn].
    apply (family_centred _ P st Hf Hin).
Qed.

Lemma SI_IS_order_witness :
  buf_ok (m_aux morph0) /\
  (ndim (of_rows3 [[0;1;0];[1;1;1];[0;1;1]]) = 2%nat \/ ndim (of_rows3 [[0;1;0];[1;1;1];[0;1;1]]) = 3%nat) /\
  binary (of_rows3 [[0;1;0];[1;1;1];[0;1;1]]) /\
  exists w1 w2 v1 v2, SI (of_rows3 [[0;1;0];[1;1;1];[0;1;1]]) morph0 = (w1, [], Ok v1) /\
    IS (of_rows3 [[0;1;0];[1;1;1];[0;1;1]]) morph0 = (w2, [], Ok v2) /\
    below v1 (of_rows3 [[0;1;0];[1;1;1];[0;1;1]]) /\ below (of_rows3 [[0;1;0];[1;1;1];[0;1;1]]) v2.
Proof.
  split; [left; reflexivity|]. split; [left; reflexivity|].
  split; [apply binary_of_check; vm_compute; reflexivity|].
  apply (SI_IS_order (of_rows3 [[0;1;0];[1;1;1];[0;1;1]]) morph0);
    [left; reflexivity | left; reflexivity | apply binary_of_check; vm_compute; reflexivity].
Defined.

(** X2: Smoothing is monotone: for binary level sets [u1 <= u2] (the first
    of rank 2 or 3) and two module states with reachable buffers in the same
    [curvop] phase, [n] rounds of [curvop] return results with [r1 <= r2]. *)
Theorem smooth_monotone (n : nat) (u1 u2 : ndarray) (w1 w2 : morph) :
  buf_ok (m_aux w1) -> buf_ok (m_aux w2) -> m_cycle w1 = m_cycle w2 ->
  (ndim u1 = 2%nat \/ ndim u1 = 3%nat) -> binary u1 -> binary u2 -> below u1 u2 ->
  exists w1' w2' o1 o2 r1 r2,
    smooth n u1 w1 = (w1', o1, Ok r1) /\ smooth n u2 w2 = (w2', o2, Ok r2) /\ below r1 r2.
Proof.
  intros H1 H2 Hc Hr B1 B2 Hle. destruct (family_rank u1 Hr) as (P & Hf).
  destruct (smooth_mono n u1 u2 w1 w2 P H1 H2 Hc Hf (proj1 (below_nzle u1 u2 B1 B2) Hle))
    as (a1 & a2 & o1 & o2 & r1 & r2 & E1 & E2 & Hq).
  pose proof (smooth_post n u1 w1 H1 B1) as P1. pose proof (smooth_post n u2 w2 H2 B2) as P2.
  rewrite E1 in P1; rewrite E2 in P2.
  exists a1, a2, o1, o2, r1, r2. split; [exact E1|]. split; [exact E2|].
  apply below_nzle; [apply (proj2 P1); reflexivity | apply (proj2 P2); reflexivity | exact Hq].
Qed.

Lemma smooth_monotone_witness :
  buf_ok (m_aux morph0) /\ buf_ok (m_aux morph0) /\ m_cycle morph0 = m_cycle morph0 /\
  (ndim (of_rows3 [[0;0;0];[0;1;0];[0;0;0]]) = 2%nat \/ ndim (of_rows3 [[0;0;0];[0;1;0];[0;0;0]]) = 3%nat) /\
  binary (of_rows3 [[0;0;0];[0;1;0];[0;0;0]]) /\ binary (of_rows3 [[0;1;0];[1;1;1];[0;1;0]]) /\
  below (of_rows3 [[0;0;0];[0;1;0];[0;0;0]]) (of_rows3 [[0;1;0];[1;1;1];[0;1;0]]) /\
  exists w1' w2' o1 o2 r1 r2,
    smooth 2 (of_rows3 [[0;0;0];[0;1;0];[0;0;0]]) morph0 = (w1', o1, Ok r1) /\
    smooth 2 (of_rows3 [[0;1;0];[1;1;1];[0;1;0]]) morph0 = (w2', o2, Ok r2) /\ below r1 r2.
Proof.
  assert (B1 : binary (of_rows3 [[0;0;0];[0;1;0];[0;0;0]]))
    by (apply binary_of_check; vm_compute; reflexivity).
  assert (B2 : binary (of_rows3 [[0;1;0];[1;1;1];[0;1;0]]))
    by (apply binary_of_check; vm_compute; reflexivity).
  assert (L : below (of_rows3 [[0;0;0];[0;1;0];[0;0;0]]) (of_rows3 [[0;1;0];[1;1;1];[0;1;0]])).
  { split; [reflexivity|]. intros x Hx. apply in_indices in Hx. vm_compute in Hx.
    repeat (destruct Hx as [<-|Hx]; [apply Qle_bool_iff; reflexivity|]). destruct Hx. }
  split; [left; reflexivity|]. split; [left; reflexivity|]. split; [reflexivity|].
  split; [left; reflexivity|]. split; [exact B1|]. split; [exact B2|]. split; [exact L|].
  apply (smooth_monotone 2 (of_rows3 [[0;0;0];[0;1;0];[0;0;0]]) (of_rows3 [[0;1;0];[1;1;1];[0;1;0]])
           morph0 morph0); [left; reflexivity | left; reflexivity | reflexivity | left; reflexivity
           | exact B1 | exact B2 | exact L].
Defined.

(** ** The [curvop] phase *)

Lemma bind_keeps {A B} (m : M morph A) (k : A -> M morph B) :
  keeps_cycle m -> (forall a, keeps_cycle (k a)) -> keeps_cycle (bind m k).
Proof.
  intros Hm Hk w. unfold bind. specialize (Hm w).
  destruct (m w) as [[w1 o1] [a|x]]; cbn in *; [|exact Hm].
  specialize (Hk a w1). destruct (k a w1) as [[w2 o2] r]; cbn in *; congruence.
Qed.

Lemma fill_layers_keeps op u P : forall i, keeps_cycle (fill_layers op u P i).
Proof.
  induction P as [|st P IH]; intros i w; cbn [fill_layers]; [reflexivity|].
  unfold bind at 1, get; cbn [fst snd].
  destruct (Nat.ltb _ _); [|reflexivity].
  lazymatch goal with |- context [bind ?m ?k w] =>
    assert (Hk : keeps_cycle (bind m k))
      by (apply bind_keeps; [intros w'; reflexivity | intros; apply IH]);
    specialize (Hk w); destruct (bind m k w) as [[w2 o2] r]; exact Hk
  end.
Qed.

Lemma multi_op_keeps op red u : keeps_cycle (multi_op op red u).
Proof.
  unfold multi_op. destruct (family (ndim u)) as [P|]; [|intros w; reflexivity].
  apply bind_keeps; [intros w; reflexivity|]. intros w0.
  apply bind_keeps; [destruct (shape_eqb _ _); intros w; reflexivity|]. intros _.
  apply bind_keeps; [apply fill_layers_keeps|]. intros _.
  apply bind_keeps; [intros w; reflexivity|]. intros w1 w; reflexivity.
Qed.

Lemma SI_keeps u : keeps_cycle (SI u).
Proof. apply multi_op_keeps. Qed.

Lemma IS_keeps u : keeps_cycle (IS u).
Proof. apply multi_op_keeps. Qed.

Lemma curvop_flip u w : m_cycle (fst (fst (curvop u w))) = negb (m_cycle w).
Proof.
  unfold curvop. destruct (m_cycle w); unfold ISoSI, SIoIS;
    [rewrite (bind_keeps _ _ (SI_keeps u) (fun a => IS_keeps a))
    |rewrite (bind_keeps _ _ (IS_keeps u) (fun a => SI_keeps a))]; reflexivity.
Qed.

Lemma smooth_phase n : forall u w w' o r,
  smooth n u w = (w', o, Ok r) -> m_cycle w' = xorb (m_cycle w) (Nat.odd n).
Proof.
  induction n as [|n IH]; intros u w w' o r H; cbn [smooth] in H.
  - injection H as <- _ _. rewrite xorb_false_r. reflexivity.
  - unfold bind in H. pose proof (curvop_flip u w) as Hc.
    destruct (curvop u w) as [[w1 o1] [a|x]]; [|discriminate]. cbn in Hc.
    destruct (smooth n a w1) as [[w2 o2] r2] eqn:E. injection H as <- _ ->.
    rewrite (IH a w1 w2 o2 r E), Hc, Nat.odd_succ, <- Nat.negb_odd.
    destruct (m_cycle w), (Nat.odd n); reflexivity.
Qed.


(** X4: A step of [MorphACWE] or [MorphGAC] that returns normally has
    advanced the [curvop] cycle by its [smoothing] count, so the phase
    changes exactly when [smoothing] is odd. *)
Theorem step_phase_parity (w : morph) (e : acwe) (g : gac) :
  match acwe_step (w, e) with
  | (s', _, Ok _) => m_cycle (fst s') = xorb (m_cycle w) (Nat.odd (a_smoothing e))
  | (s', _, Raise _) => True
  end /\
  match gac_step (w, g) with
  | (s', _, Ok _) => m_cycle (fst s') = xorb (m_cycle w) (Nat.odd (g_smoothing g))
  | (s', _, Raise _) => True
  end.
Proof.
  split.
  - rewrite acwe_step_eq. destruct (a_u e) as [u|]; [|exact I].
    destruct (negb _); [exact I|]. destruct (acwe_attach _ _ _ _) as [res|x]; [|exact I].
    destruct (smooth _ res w) as [[w' o] [r|x]] eqn:E; [|exact I].
    exact (smooth_phase _ _ _ _ _ _ E).
  - rewrite gac_step_eq. destruct (g_u g) as [u|]; [|exact I].
    destruct (gac_balloon _ _ _) as [res|x]; [|exact I].
    destruct (gac_attach _ _) as [res'|x]; [|exact I].
    destruct (smooth _ res' w) as [[w' o] [r|x]] eqn:E; [|exact I].
    exact (smooth_phase _ _ _ _ _ _ E).
Qed.

(** ** [set_levelset] *)





(** ** What a run changes *)

Lemma acwe_step_frame w e : post (acwe_frame e) (fun _ => True) (acwe_step (w, e)).
Proof.
  rewrite acwe_step_eq. unfold acwe_frame.
  destruct (a_u e) as [u|]; [|split; [left; reflexivity | intros; exact I]].
  destruct (negb _); [split; [left; reflexivity | intros; exact I]|].
  destruct (acwe_attach _ _ _ _) as [res|x]; [|split; [left; reflexivity | intros; exact I]].
  destruct (smooth _ res w) as [[w' o] [r|x]];
    split; [right; exists r; reflexivity | intros; exact I | left; reflexivity | intros; exact I].
Qed.

Lemma gac_step_frame w g : post (gac_frame g) (fun _ => True) (gac_step (w, g)).
Proof.
  rewrite gac_step_eq. unfold gac_frame.
  destruct (g_u g) as [u|]; [|split; [left; reflexivity | intros; exact I]].
  destruct (gac_balloon _ _ _) as [res|x]; [|split; [left; reflexivity | intros; exact I]].
  destruct (gac_attach _ _) as [res'|x]; [|split; [left; reflexivity | intros; exact I]].
  destruct (smooth _ res' w) as [[w' o] [r|x]];
    split; [right; exists r; reflexivity | intros; exact I | left; reflexivity | intros; exact I].
Qed.

Lemma acwe_frame_trans e s : acwe_frame e s -> forall t, acwe_frame (snd s) t -> acwe_frame e t.
Proof.
  intros [H | (u & H)] t [H' | (u' & H')]; unfold acwe_frame; rewrite H'.
  - rewrite H; left; reflexivity.
  - rewrite H; right; exists u'; reflexivity.
  - rewrite H; right; exists u; reflexivity.
  - rewrite H; right; exists u'; reflexivity.
Qed.

Lemma gac_frame_trans g s : gac_frame g s -> forall t, gac_frame (snd s) t -> gac_frame g t.
Proof.
  intros [H | (u & H)] t [H' | (u' & H')]; unfold gac_frame; rewrite H'.
  - rewrite H; left; reflexivity.
  - rewrite H; right; exists u'; reflexivity.
  - rewrite H; right; exists u; reflexivity.
  - rewrite H; right; exists u'; reflexivity.
Qed.

Lemma acwe_run_frame n : forall s, post (acwe_frame (snd s)) (fun _ => True) (acwe_run n s).
Proof.
  induction n as [|n IH]; intros [w0 e0]; cbn [acwe_run].
  - split; [left; reflexivity | intros; exact I].
  - apply bind_post with (P1 := fun _ => True); [apply acwe_step_frame|].
    intros _ t _ Ht. specialize (IH t).
    destruct (acwe_run n t) as [[t' o] r]. destruct IH as [IH _].
    split; [eapply acwe_frame_trans; eauto | intros; exact I].
Qed.

Lemma gac_run_frame n : forall s, post (gac_frame (snd s)) (fun _ => True) (gac_run n s).
Proof.
  induction n as [|n IH]; intros [w0 g0]; cbn [gac_run].
  - split; [left; reflexivity | intros; exact I].
  - apply bind_post with (P1 := fun _ => True); [apply gac_step_frame|].
    intros _ t _ Ht. specialize (IH t).
    destruct (gac_run n t) as [[t' o] r]. destruct IH as [IH _].
    split; [eapply gac_frame_trans; eauto | intros; exact I].
Qed.

(** X6: [run n] of either evolver changes no attribute except [_u], whatever
    the outcome: smoothing, lambdas, data, balloon, threshold, gradient,
    masks and structure are left as they were. *)
Theorem run_changes_only_levelset (n : nat) (w : morph) (e : acwe) (g : gac) :
  (let '(s', _, _) := acwe_run n (w, e) in snd s' = e \/ exists u, snd s' = acwe_with_u e u) /\
  (let '(s', _, _) := gac_run n (w, g) in snd s' = g \/ exists u, snd s' = gac_with_u g (Some u)).
Proof.
  pose proof acwe_run_frame as HA. pose proof gac_run_frame as HG.
  split.
  - specialize (HA n (w, e)). destruct (acwe_run n (w, e)) as [[s' o] r]. exact (proj1 HA).
  - specialize (HG n (w, g)). destruct (gac_run n (w, g)) as [[s' o] r]. exact (proj1 HG).
Qed.

(** ** Composing runs *)





(** ** Steps that only smooth *)

Lemma masked_set_none a m v :
  (forall x, inb (shape a) x = true -> m x = false) -> masked_set a m v = copy a.
Proof.
  intros H. unfold masked_set, copy. apply tabulate_ext_in. intros x Hx. rewrite H by exact Hx.
  reflexivity.
Qed.




Lemma flt_fin_zero q : q == 0 -> flt_lt (Fin q) (Fin 0) = false /\ flt_gt (Fin q) (Fin 0) = false.
Proof.
  intros H. unfold flt_gt, flt_lt, qlt. split; apply negb_false_iff, Qle_bool_iff; rewrite H;
    apply Qle_refl.
Qed.

Lemma aux_flat l1 l2 data c0 c1 g x :
  (c0 = NaN \/ c1 = NaN) \/
  (exists q0 q1, c0 = Fin q0 /\ c1 = Fin q1 /\
     ((l1 == 0 /\ l2 == 0) \/ (at_ data x == q0 /\ at_ data x == q1))) ->
  flt_lt (acwe_aux l1 l2 data c0 c1 g x) (Fin 0) = false /\
  flt_gt (acwe_aux l1 l2 data c0 c1 g x) (Fin 0) = false.
Proof.
  intros [Hn | (q0 & q1 & -> & -> & H)].
  - rewrite acwe_aux_nan by exact Hn. split; reflexivity.
  - unfold acwe_aux, sq, flt_sub, flt_mul, flt_add, flt_neg. apply flt_fin_zero.
    destruct H as [[H1 H2] | [H0 H1]].
    + rewrite H1, H2. ring.
    + rewrite H1 at 1 2. rewrite H0. ring.
Qed.





Lemma autoconvg_loop_min {St} (step : M St unit) get_u k : forall i fn fd s s' o n,
  autoconvg_loop step get_u k i fn fd s = (s', o, Ok n) -> (n = i + k \/ 8 <= n)%nat.
Proof.
  induction k as [|k IH]; intros i fn fd s s' o n; cbn [autoconvg_loop]; unfold bind, get, ret, raise, tell.
  - intros H; injection H as _ _ <-; lia.
  - destruct (step s) as [[s1 o1] [[]|x]]; [|discriminate].
    destruct (get_u s1) as [u|]; [|discriminate].
    repeat match goal with |- context [if ?b then _ else _] => destruct b eqn:? end;
      try (intros H; injection H as _ _ <-; right;
           repeat match goal with Hb : Nat.ltb _ _ = true |- _ => apply Nat.ltb_lt in Hb end; lia);
      match goal with |- context [autoconvg_loop step get_u k ?i' ?fn' ?fd' s1] =>
        destruct (autoconvg_loop step get_u k i' fn' fd' s1) as [[s2 o2] r2] eqn:E
      end;
      (intros H; injection H as _ _ ->; destruct (IH _ _ _ _ _ _ _ E); lia).
Qed.

(** X9: [autoconvg] never stops before its eighth iteration: a normal return
    has called [step] at least 8 times (the convergence test runs only for
    [i > 6]). *)
Theorem autoconvg_min_steps {St} (step : M St unit) (get_u : St -> option ndarray) (s : St) :
  (let '(_, _, r) := autoconvg step get_u s in
   match r with Ok n => (8 <= n)%nat | Raise _ => True end) /\
  (let '((_, c), _, r) := autoconvg (counted step) (fun sc => get_u (fst sc)) (s, 0%nat) in
   match r with Ok _ => (8 <= c)%nat | Raise _ => True end).
Proof.
  unfold autoconvg. split.
  - destruct (autoconvg_loop step get_u iterations 0 _ _ s) as [[s' o] [n|x]] eqn:E; [|exact I].
    destruct (autoconvg_loop_min step get_u _ _ _ _ _ _ _ _ E); unfold iterations in *; lia.
  - pose proof (autoconvg_loop_counted step get_u iterations 0 (fun _ => 0) (fun _ => 0) s 0) as H.
    destruct (autoconvg_loop (counted step) _ iterations 0 _ _ (s, 0%nat))
      as [[[s' c] o] [n|x]]; [|exact I].
    destruct H as (E & _ & Hn). specialize (Hn n eq_refl).
    destruct (autoconvg_loop_min step get_u _ _ _ _ _ _ _ _ E); unfold iterations in *; lia.
Qed.

Lemma clamp_range p n : (1 <= n)%nat -> (0 <= clamp p n <= Z.of_nat n - 1)%Z.
Proof. intros Hn. unfold clamp. lia. Qed.

Lemma box_excl p q n x : (x < n)%nat -> x = (n - 1)%nat ->
  Nat.ltb x (nat_of_Z (clamp p n) + nat_of_Z (Z.max 0 (clamp q n - clamp p n))) = false.
Proof.
  intros Hx ->. pose proof (clamp_range p n ltac:(lia)). pose proof (clamp_range q n ltac:(lia)).
  apply Nat.ltb_ge. unfold nat_of_Z. lia.
Qed.

Lemma post_raise {S A} (I : S -> Prop) (P : A -> Prop) x s : I s -> post I P (raise x s).
Proof. intros Hs. split; [exact Hs | discriminate]. Qed.

Lemma post_ret {S A} (I : S -> Prop) (P : A -> Prop) a s : I s -> P a -> post I P (ret a s).
Proof. intros Hs Hp. split; [exact Hs | intros b Hb; injection Hb as <-; exact Hp]. Qed.

Lemma post_any {S A} (m : M S A) s : post (fun _ => True) (fun _ => True) (m s).
Proof. unfold post. destruct (m s) as [[t o] r]. split; [exact I | intros; exact I]. Qed.

(** X10: The mask returned by [soma_detect] has the shape of the image and
    is 0 on the last slice of every axis: the soma box is clamped to [n - 1]
    and then sliced with an exclusive end. *)
Theorem soma_detect_last_slices_zero img somapos somaradius smoothing l1 l2 soma iterations w w' o m :
  soma_detect img somapos somaradius smoothing l1 l2 soma iterations w = (w', o, Ok m) ->
  shape m = shape img /\
  forall x, inb (shape img) x = true ->
  (exists j, (j < length (shape img))%nat /\ nth j x 0%nat = (nth j (shape img) 0 - 1)%nat) -> at_ m x == 0.
Proof.
  intros H.
  set (P := fun m => shape m = shape img /\
  forall x, inb (shape img) x = true ->
  (exists j, (j < length (shape img))%nat /\ nth j x 0%nat = (nth j (shape img) 0 - 1)%nat) -> at_ m x == 0).
  assert (Hp : post (fun _ => True) P
    (soma_detect img somapos somaradius smoothing l1 l2 soma iterations w)).
  2:{ rewrite H in Hp. exact (proj2 Hp m eq_refl). }
  unfold soma_detect.
  destruct (shape img) as [|n0 [|n1 [|n2 [|? ?]]]] eqn:Hsh; try (apply post_raise; exact I).
  destruct (Nat.eqb n2 0); [apply post_raise; exact I|].
  apply (bind_post _ (fun _ => True)); [apply post_any|intros _ w1 _ _].
  destruct (qlt somaradius 0); [apply post_raise; exact I|].
  apply (bind_post _ (fun _ => True)); [apply post_any|intros _ w2 _ _].
  destruct somapos as [|p0 [|p1 [|p2 [|? ?]]]]; try (apply post_raise; exact I).
  do 4 (apply (bind_post _ (fun _ => True)); [apply post_any|intros _ ?w _ _]).
  apply (bind_post _ (fun _ => True)); [apply post_any|intros r w6 _ _].
  apply post_ret; [exact I|].
  split; [rewrite shape_tabulate; reflexivity|].
  intros x Hx [j [Hjl Hj]]. rewrite at_tabulate by exact Hx.
  set (sq := sqrval_of _ _).
  destruct x as [|x0 [|x1 [|x2 [|? ?]]]]; cbn [inb] in Hx;
    try (rewrite ?andb_false_r in Hx; discriminate Hx).
  rewrite !andb_true_r, !andb_true_iff, !Nat.ltb_lt in Hx. destruct Hx as (Hx0 & Hx1 & Hx2).
  cbn [combine map fst snd forallb].
  destruct j as [|[|[|j]]]; cbn in Hj, Hjl; [| | | lia]; subst;
  [rewrite box_excl by lia | rewrite (box_excl _ _ n1) by lia | rewrite (box_excl _ _ n2) by lia];
  rewrite ?andb_false_r, ?andb_false_l; reflexivity.
Qed.

Lemma soma_detect_last_slices_zero_witness :
  exists w' o m,
    soma_detect (tabulate [3;3;3]%nat (fun _ => 7)) [1;1;1]%Z 1 1 1 1 true 0 morph0 = (w', o, Ok m) /\
    shape m = [3;3;3]%nat /\
    (forall x, inb [3;3;3]%nat x = true ->
       (exists j, (j < 3)%nat /\ nth j x 0%nat = (nth j [3;3;3]%nat 0 - 1)%nat) -> at_ m x == 0).
Proof.
  destruct (soma_detect (tabulate [3;3;3]%nat (fun _ => 7)) [1;1;1]%Z 1 1 1 1 true 0 morph0)
    as [[w' o] [m|x]] eqn:E.
  - exists w', o, m. split; [reflexivity|].
    exact (soma_detect_last_slices_zero (tabulate [3;3;3]%nat (fun _ => 7)) [1;1;1]%Z 1 1 1 1 true 0
             morph0 w' o m E).
  - vm_compute in E. discriminate E.
Defined.

Lemma qlt_asym a b : qlt a b = true -> qlt b a = false.
Proof.
  unfold qlt. rewrite !negb_true_iff, !negb_false_iff, <- !not_true_iff_false, !Qle_bool_iff.
  intros H1. apply Qlt_le_weak, Qnot_le_lt, H1.
Qed.

Lemma at_copy u x : inb (shape u) x = true -> at_ (copy u) x = at_ u x.
Proof. intros Hx. unfold copy. apply at_tabulate, Hx. Qed.

Lemma centred_ones r : centred r (tabulate (repeat 3%nat r) (fun _ => 1)).
Proof.
  split; [apply shape_tabulate|]. rewrite at_tabulate by apply inb_repeat. reflexivity.
Qed.

(** X11: The balloon force of [MorphGAC.step], applied to a binary level set
    with a centred structuring element, only grows the level set when [v >
    0], only shrinks it when [v < 0], and leaves the copy when [v = 0]. *)
Theorem gac_balloon_direction (g : gac) (u out : ndarray) :
  binary u -> centred (ndim u) (g_structure g) ->
  gac_balloon g u (copy u) = Ok out ->
  (qlt 0 (g_v g) = true -> below u out) /\
  (qlt (g_v g) 0 = true -> below out u) /\
  (qlt 0 (g_v g) = false -> qlt (g_v g) 0 = false -> out = copy u).
Proof.
  intros Hb Hc H. unfold gac_balloon in H.
  destruct (qlt 0 (g_v g)) eqn:Hpos; [|destruct (qlt (g_v g) 0) eqn:Hneg];
    [ | | injection H as <-; split; [discriminate|]; split; [discriminate|]; reflexivity].
  all: destruct (negb (Nat.eqb _ _)); [discriminate|];
       destruct (negb (shape_eqb _ _)); [discriminate|]; injection H as <-.
  - split; [|split; [intros Hn; rewrite (qlt_asym _ _ Hpos) in Hn; discriminate | discriminate]].
    intros _. split; [rewrite shape_tabulate; reflexivity|].
    intros x Hx. rewrite at_tabulate by exact Hx.
    destruct (nonzero _); [|rewrite at_copy by exact Hx; apply Qle_refl].
    rewrite (binary_b2q u x Hb Hx). apply Qle_b2q. intros Hn.
    apply dilation_centre; assumption.
  - split; [discriminate|]. split; [|discriminate].
    intros _. split; [rewrite shape_tabulate; reflexivity|].
    intros x Hx. rewrite shape_tabulate in Hx. change (shape (copy u)) with (shape u) in Hx.
    rewrite at_tabulate by exact Hx.
    destruct (nonzero _); [|rewrite at_copy by exact Hx; apply Qle_refl].
    rewrite (binary_b2q u x Hb Hx). apply Qle_b2q. intros He.
    apply (erosion_centre u (g_structure g)); assumption.
Qed.

Lemma gac_balloon_direction_witness :
  exists out,
    binary (of_rows3 [[0;0;0];[0;1;0];[0;0;0]]) /\
    centred (ndim (of_rows3 [[0;0;0];[0;1;0];[0;0;0]])) (tabulate [3;3]%nat (fun _ => 1)) /\
    gac_balloon (mk_gac None 1 0 1 (tabulate [3;3]%nat (fun _ => 1)) []
                        (tabulate [3;3]%nat (fun _ => 1)) (tabulate [3;3]%nat (fun _ => 1))
                        (tabulate [3;3]%nat (fun _ => 1)))
                (of_rows3 [[0;0;0];[0;1;0];[0;0;0]])
                (copy (of_rows3 [[0;0;0];[0;1;0];[0;0;0]])) = Ok out /\
    (qlt 0 1 = true -> below (of_rows3 [[0;0;0];[0;1;0];[0;0;0]]) out) /\
    (qlt 1 0 = true -> below out (of_rows3 [[0;0;0];[0;1;0];[0;0;0]])) /\
    (qlt 0 1 = false -> qlt 1 0 = false -> out = copy (of_rows3 [[0;0;0];[0;1;0];[0;0;0]])).
Proof.
  assert (Hb : binary (of_rows3 [[0;0;0];[0;1;0];[0;0;0]]))
    by (apply binary_of_check; vm_compute; reflexivity).
  assert (Hc : centred (ndim (of_rows3 [[0;0;0];[0;1;0];[0;0;0]])) (tabulate [3;3]%nat (fun _ => 1)))
    by apply (centred_ones 2).
  destruct (gac_balloon (mk_gac None 1 0 1 (tabulate [3;3]%nat (fun _ => 1)) []
                        (tabulate [3;3]%nat (fun _ => 1)) (tabulate [3;3]%nat (fun _ => 1))
                        (tabulate [3;3]%nat (fun _ => 1)))
                (of_rows3 [[0;0;0];[0;1;0];[0;0;0]])
                (copy (of_rows3 [[0;0;0];[0;1;0];[0;0;0]]))) as [out|x] eqn:E.
  - exists out. split; [exact Hb|]. split; [exact Hc|]. split; [reflexivity|].
    exact (gac_balloon_direction
             (mk_gac None 1 0 1 (tabulate [3;3]%nat (fun _ => 1)) []
                     (tabulate [3;3]%nat (fun _ => 1)) (tabulate [3;3]%nat (fun _ => 1))
                     (tabulate [3;3]%nat (fun _ => 1)))
             (of_rows3 [[0;0;0];[0;1;0];[0;0;0]]) out Hb Hc E).
  - vm_compute in E. discriminate E.
Defined.




Lemma circle_dist_self (x : list nat) : forall acc,
  fold_left (fun acc p => acc + (inject_Z (Z.of_nat (fst p)) - snd p)
                               * (inject_Z (Z.of_nat (fst p)) - snd p))
            (combine x (map (fun i => inject_Z (Z.of_nat i)) x)) acc == acc.
Proof.
  induction x as [|i x IH]; intros acc; [reflexivity|].
  cbn [combine map fold_left fst snd]. rewrite IH. ring.
Qed.

Lemma qlt_compat a b c d : a == c -> b == d -> qlt a b = qlt c d.
Proof.
  intros H1 H2. unfold qlt. f_equal.
  destruct (Qle_bool b a) eqn:E1, (Qle_bool d c) eqn:E2; try reflexivity.
  - apply Qle_bool_iff in E1. rewrite H1, H2 in E1. apply Qle_bool_iff in E1. congruence.
  - apply Qle_bool_iff in E2. rewrite <- H1, <- H2 in E2. apply Qle_bool_iff in E2. congruence.
Qed.

(** X14: [circle_levelset] returns a 0/1 array; its value at an integer
    centre inside the grid is 1 exactly when [sqradius > 0], and for
    [sqradius <= 0] it is 0 everywhere. *)
Theorem circle_levelset_centre (sh x : list nat) (r : Q) :
  inb sh x = true ->
  binary (circle_levelset sh (map (fun i => inject_Z (Z.of_nat i)) x) r) /\
  at_ (circle_levelset sh (map (fun i => inject_Z (Z.of_nat i)) x) r) x = b2q (qlt 0 r) /\
  (qlt 0 r = false -> forall c y, inb sh y = true -> at_ (circle_levelset sh c r) y = 0).
Proof.
  intros Hx. split; [apply binary_tabulate_b2q|]. split.
  - unfold circle_levelset. rewrite at_tabulate by exact Hx.
    destruct (qlt 0 r) eqn:Hr; [|reflexivity]. cbn [andb].
    rewrite (qlt_compat _ _ 0 (r * r) (circle_dist_self x 0) (Qeq_refl _)).
    replace (qlt 0 (r * r)) with true; [reflexivity|].
    symmetry. unfold qlt in *. apply negb_true_iff in Hr. apply negb_true_iff.
    rewrite <- not_true_iff_false, Qle_bool_iff in Hr |- *. intros Hle.
    apply Qnot_le_lt in Hr. apply Qle_lteq in Hle. destruct Hle as [Hle | Hle].
    + exfalso. pose proof (Qmult_lt_0_compat r r Hr Hr). apply (Qlt_irrefl 0).
      apply Qlt_trans with (r * r); assumption.
    + exfalso. pose proof (Qmult_lt_0_compat r r Hr Hr). rewrite Hle in H. apply (Qlt_irrefl 0), H.
  - intros Hr c y Hy. unfold circle_levelset. rewrite at_tabulate by exact Hy. rewrite Hr. reflexivity.
Qed.

Lemma circle_levelset_centre_witness :
  inb [3;5]%nat [1;2]%nat = true /\
  binary (circle_levelset [3;5]%nat (map (fun i => inject_Z (Z.of_nat i)) [1;2]%nat) 2) /\
  at_ (circle_levelset [3;5]%nat (map (fun i => inject_Z (Z.of_nat i)) [1;2]%nat) 2) [1;2]%nat = b2q (qlt 0 2) /\
  (qlt 0 2 = false -> forall c y, inb [3;5]%nat y = true -> at_ (circle_levelset [3;5]%nat c 2) y = 0).
Proof.
  split; [reflexivity|]. apply (circle_levelset_centre [3;5]%nat [1;2]%nat 2). reflexivity.
Defined.

Lemma smooth_bad_rank k r w :
  family (ndim r) = None ->
  smooth (S k) r w =
  (mk_morph (negb (m_cycle w)) (m_aux w), [],
   Raise (ValueError "u has an invalid number of dimensions (should be 2 or 3)")).
Proof.
  intros Hf. cbn [smooth]. unfold bind at 1, curvop.
  destruct (m_cycle w); unfold ISoSI, SIoIS, bind, SI, IS;
    rewrite multi_op_bad_rank by exact Hf; reflexivity.
Qed.

(** X15: On a level set of a rank other than 2 or 3 (every axis at least 2
    long, data of the same shape, nonzero smoothing, and no balloon for
    [MorphGAC]), [step] raises the [ValueError] of [SI]/[IS] after [curvop]
    has already advanced the cycle, and leaves [_u] unchanged. *)
Theorem step_bad_rank (w : morph) (e : acwe) (g : gac) (u : ndarray) (k : nat) :
  family (ndim u) = None -> (forall n, In n (shape u) -> (2 <= n)%nat) ->
  a_u e = Some u -> shape (a_data e) = shape u -> a_smoothing e = S k ->
  g_u g = Some u -> shape (g_data g) = shape u -> g_v g == 0 -> g_smoothing g = S k ->
  acwe_step (w, e) =
    ((mk_morph (negb (m_cycle w)) (m_aux w), e), [],
     Raise (ValueError "u has an invalid number of dimensions (should be 2 or 3)")) /\
  gac_step (w, g) =
    ((mk_morph (negb (m_cycle w)) (m_aux w), g), [],
     Raise (ValueError "u has an invalid number of dimensions (should be 2 or 3)")).
Proof.
  intros Hf Hn Hu Hsh Hk Hgu Hgsh Hv Hgk. split.
  - rewrite acwe_step_eq, Hu.
    replace (shape_eqb (shape (a_data e)) (shape u)) with true
      by (symmetry; apply shape_eqb_true, Hsh).
    cbn [negb]. unfold acwe_attach. rewrite (gradient_no_short u Hn).
    rewrite Hk, smooth_bad_rank by exact Hf. reflexivity.
  - rewrite gac_step_eq, Hgu. unfold gac_balloon.
    rewrite (qlt_compat 0 (g_v g) 0 0 (Qeq_refl 0) Hv), (qlt_compat (g_v g) 0 0 0 Hv (Qeq_refl 0)).
    change (qlt 0 0) with false. cbv iota.
    unfold gac_attach. rewrite (gradient_no_short (copy u) Hn).
    replace (shape_eqb (shape (g_data g)) (shape (copy u))) with true
      by (symmetry; apply shape_eqb_true, Hgsh).
    cbn [negb]. rewrite Hgk, smooth_bad_rank by exact Hf. reflexivity.
Qed.

Lemma step_bad_rank_witness :
  family (ndim (tabulate [3]%nat (fun _ => 1))) = None /\
  (forall n, In n (shape (tabulate [3]%nat (fun _ => 1))) -> (2 <= n)%nat) /\
  acwe_step (morph0, acwe_with_u (acwe_init (tabulate [3]%nat (fun _ => 5)) 1 1 1)
                                 (tabulate [3]%nat (fun _ => 1))) =
    ((mk_morph (negb (m_cycle morph0)) (m_aux morph0),
      acwe_with_u (acwe_init (tabulate [3]%nat (fun _ => 5)) 1 1 1) (tabulate [3]%nat (fun _ => 1))), [],
     Raise (ValueError "u has an invalid number of dimensions (should be 2 or 3)")) /\
  gac_step (morph0, mk_gac (Some (tabulate [3]%nat (fun _ => 1))) 0 0 1
                           (tabulate [3]%nat (fun _ => 5)) [] (zeros []) (zeros []) (zeros [])) =
    ((mk_morph (negb (m_cycle morph0)) (m_aux morph0),
      mk_gac (Some (tabulate [3]%nat (fun _ => 1))) 0 0 1
             (tabulate [3]%nat (fun _ => 5)) [] (zeros []) (zeros []) (zeros [])), [],
     Raise (ValueError "u has an invalid number of dimensions (should be 2 or 3)")).
Proof.
  assert (Hn : forall n, In n (shape (tabulate [3]%nat (fun _ => 1))) -> (2 <= n)%nat)
    by (intros n [<- | []]; lia).
  split; [reflexivity|]. split; [exact Hn|].
  apply (step_bad_rank morph0
           (acwe_with_u (acwe_init (tabulate [3]%nat (fun _ => 5)) 1 1 1) (tabulate [3]%nat (fun _ => 1)))
           (mk_gac (Some (tabulate [3]%nat (fun _ => 1))) 0 0 1
                   (tabulate [3]%nat (fun _ => 5)) [] (zeros []) (zeros []) (zeros []))
           (tabulate [3]%nat (fun _ => 1)) 0);
    try reflexivity; exact Hn.
Defined.

Lemma dilation_empty u st x : empty_ls u -> dilation u st x = false.
Proof.
  intros He. apply not_true_iff_false. intros H.
  apply existsb_exists in H as (p & _ & Hp). apply andb_true_iff in Hp as [_ Hp].
  destruct (neighbour (shape u) x p (-1)) as [y|] eqn:E; [|discriminate].
  rewrite (He y (neighbour_inb _ _ _ _ _ E)) in Hp. discriminate.
Qed.

Lemma erosion_empty u st x :
  centred (length (shape u)) st -> inb (shape u) x = true -> empty_ls u -> erosion u st x = false.
Proof.
  intros Hc Hx He. apply not_true_iff_false. intros H.
  pose proof (erosion_centre u st x Hc Hx H) as C.
  rewrite (He x Hx) in C. discriminate.
Qed.

Lemma SI_IS_empty u w P :
  buf_ok (m_aux w) -> family (ndim u) = Some P -> empty_ls u ->
  (exists v, SI u w = (mk_morph (m_cycle w) (tabulate (length P :: shape u) (layers_of erosion u P)), [], Ok v) /\
             empty_ls v /\ shape v = shape u) /\
  (exists v, IS u w = (mk_morph (m_cycle w) (tabulate (length P :: shape u) (layers_of dilation u P)), [], Ok v) /\
             empty_ls v /\ shape v = shape u).
Proof.
  intros Hw Hf He. split.
  - rewrite (SI_spec u w P Hw Hf). eexists. split; [reflexivity|].
    split; [|apply shape_tabulate].
    intros x Hx. rewrite shape_tabulate in Hx. rewrite at_tabulate by exact Hx.
    replace (existsb _ P) with false; [reflexivity|].
    symmetry. apply not_true_iff_false. intros H. apply existsb_exists in H as (st & Hin & H).
    rewrite (erosion_empty u st x (family_centred _ _ _ Hf Hin) Hx He) in H. discriminate.
  - rewrite (IS_spec u w P Hw Hf). eexists. split; [reflexivity|].
    split; [|apply shape_tabulate].
    intros x Hx. rewrite shape_tabulate in Hx. rewrite at_tabulate by exact Hx.
    destruct (family_nonempty _ _ Hf) as (st & P' & ->). cbn [forallb].
    rewrite dilation_empty by exact He. reflexivity.
Qed.

Lemma curvop_empty u w P :
  buf_ok (m_aux w) -> family (ndim u) = Some P -> empty_ls u ->
  exists w' r, curvop u w = (w', [], Ok r) /\ empty_ls r /\ shape r = shape u /\ buf_ok (m_aux w').
Proof.
  intros Hw Hf He. unfold curvop.
  set (a := mk_morph (negb (m_cycle w)) (m_aux w)).
  assert (A : buf_ok (m_aux a)) by exact Hw.
  destruct (SI_IS_empty u a P A Hf He) as [(s & ES & Hs & Hssh) (i & EI & Hi & Hish)].
  destruct (m_cycle w); unfold ISoSI, SIoIS, bind.
  - rewrite ES.
    assert (Hf' : family (ndim s) = Some P) by (unfold ndim in *; rewrite Hssh; exact Hf).
    destruct (SI_IS_empty s (mk_morph (m_cycle a) (tabulate (length P :: shape u) (layers_of erosion u P)))
                P (buf_ok_layers _ _ _ Hf) Hf' Hs) as [_ (j & EJ & Hj & Hjsh)].
    rewrite EJ. eexists _, _. split; [reflexivity|]. split; [exact Hj|].
    split; [congruence | apply buf_ok_layers, Hf'].
  - rewrite EI.
    assert (Hf' : family (ndim i) = Some P) by (unfold ndim in *; rewrite Hish; exact Hf).
    destruct (SI_IS_empty i (mk_morph (m_cycle a) (tabulate (length P :: shape u) (layers_of dilation u P)))
                P (buf_ok_layers _ _ _ Hf) Hf' Hi) as [(j & EJ & Hj & Hjsh) _].
    rewrite EJ. eexists _, _. split; [reflexivity|]. split; [exact Hj|].
    split; [congruence | apply buf_ok_layers, Hf'].
Qed.

Lemma smooth_empty n : forall u w P,
  buf_ok (m_aux w) -> family (ndim u) = Some P -> empty_ls u ->
  exists w' o r, smooth n u w = (w', o, Ok r) /\ empty_ls r /\ shape r = shape u /\
                 buf_ok (m_aux w').
Proof.
  induction n as [|n IH]; intros u w P Hw Hf He.
  - do 3 eexists. split; [reflexivity|]. split; [exact He | split; [reflexivity | exact Hw]].
  - destruct (curvop_empty u w P Hw Hf He) as (a & r & E & Hr & Hsh & A).
    cbn [smooth]. unfold bind at 1. rewrite E.
    assert (Hf' : family (ndim r) = Some P) by (unfold ndim in *; rewrite Hsh; exact Hf).
    destruct (IH r a P A Hf' Hr) as (b & o & q & F & Hq & Hqsh & B).
    rewrite F. do 3 eexists. split; [reflexivity|]. split; [exact Hq | split; [congruence | exact B]].
Qed.

Lemma empty_copy u : empty_ls u -> empty_ls (copy u).
Proof. intros He x Hx. rewrite at_copy by exact Hx. apply He, Hx. Qed.

Lemma empty_inside u x : empty_ls u -> inb (shape u) x = true -> inside_q (at_ u x) = false.
Proof.
  intros He Hx. specialize (He x Hx). unfold nonzero in He. apply negb_false_iff, Qeq_bool_iff in He.
  unfold inside_q. rewrite (qlt_compat 0 (at_ u x) 0 0 (Qeq_refl 0) He). reflexivity.
Qed.

Lemma acwe_attach_empty l1 l2 data u :
  shape data = shape u -> (forall n, In n (shape u) -> (2 <= n)%nat) -> empty_ls u ->
  acwe_attach l1 l2 data u = Ok (copy u).
Proof.
  intros Hsh Hn He. unfold acwe_attach. rewrite !region_mean_spec by exact Hsh.
  rewrite (gradient_no_short u Hn).
  rewrite (spec_mean_empty data u inside_q (fun x Hx => empty_inside u x He Hx)).
  set (c0 := spec_mean data u outside_q). set (g := abs_grad_sum _ _).
  assert (Hx : forall x, flt_lt (acwe_aux l1 l2 data c0 NaN g x) (Fin 0) = false /\
                         flt_gt (acwe_aux l1 l2 data c0 NaN g x) (Fin 0) = false).
  { intros x. apply aux_flat. left; right; reflexivity. }
  rewrite (masked_set_none (copy u)) by (intros x _; apply (proj1 (Hx x))).
  rewrite (masked_set_none (copy (copy u))) by (intros x _; apply (proj2 (Hx x))).
  rewrite !copy_copy. reflexivity.
Qed.

Lemma acwe_step_keeps_empty (w : morph) (e : acwe) (u : ndarray) :
  buf_ok (m_aux w) -> a_u e = Some u -> shape (a_data e) = shape u ->
  (ndim u = 2%nat \/ ndim u = 3%nat) -> (forall n, In n (shape u) -> (2 <= n)%nat) ->
  empty_ls u ->
  exists w' o r, acwe_step (w, e) = ((w', acwe_with_u e r), o, Ok tt) /\
                 empty_ls r /\ shape r = shape u /\ buf_ok (m_aux w').
Proof.
  intros Hw Hu Hsh Hr Hn He.
  destruct (family_rank u Hr) as (P & Hf).
  rewrite (acwe_step_attach w e u (copy u) Hu Hsh
             (acwe_attach_empty _ _ _ _ Hsh Hn He)), acwe_commit_eq.
  assert (Hf' : family (ndim (copy u)) = Some P) by exact Hf.
  destruct (smooth_empty (a_smoothing e) (copy u) w P Hw Hf' (empty_copy u He))
    as (w' & o & r & E & Hre & Hrsh & B).
  rewrite E. exists w', o, r. split; [reflexivity|]. split; [exact Hre | split; [exact Hrsh | exact B]].
Qed.

(** X16: An empty level set of rank 2 or 3 stays empty: [MorphACWE.run n]
    returns normally and its level set has no voxel set (the inside mean is
    NaN, so the attachment changes nothing, and smoothing cannot create
    voxels). *)
Theorem acwe_run_keeps_empty (n : nat) : forall (w : morph) (e : acwe) (u : ndarray),
  buf_ok (m_aux w) -> a_u e = Some u -> shape (a_data e) = shape u ->
  (ndim u = 2%nat \/ ndim u = 3%nat) -> (forall n, In n (shape u) -> (2 <= n)%nat) ->
  empty_ls u ->
  exists w' o r, acwe_run n (w, e) = ((w', acwe_with_u e r), o, Ok tt) /\
                 empty_ls r /\ shape r = shape u.
Proof.
  induction n as [|n IH]; intros w e u Hw Hu Hsh Hr Hn He.
  - exists w, [], u. split; [|split; [exact He | reflexivity]].
    destruct e; cbn in Hu |- *. subst. reflexivity.
  - cbn [acwe_run]. unfold bind at 1.
    destruct (acwe_step_keeps_empty w e u Hw Hu Hsh Hr Hn He) as (w1 & o1 & r1 & E & He1 & Hsh1 & B1).
    rewrite E.
    assert (Hr1 : ndim r1 = 2%nat \/ ndim r1 = 3%nat) by (unfold ndim; rewrite Hsh1; exact Hr).
    assert (Hn1 : forall k, In k (shape r1) -> (2 <= k)%nat) by (rewrite Hsh1; exact Hn).
    destruct (IH w1 (acwe_with_u e r1) r1 B1 eq_refl (eq_trans Hsh (eq_sym Hsh1)) Hr1 Hn1 He1)
      as (w2 & o2 & r2 & E2 & He2 & Hsh2).
    rewrite E2. exists w2, (o1 ++ o2), r2. split; [reflexivity|].
    split; [exact He2 | congruence].
Qed.

Lemma acwe_run_keeps_empty_witness :
  buf_ok (m_aux morph0) /\
  empty_ls (tabulate [3;3]%nat (fun _ => 0)) /\
  exists w' o r,
    acwe_run 3 (morph0, acwe_with_u (acwe_init (of_rows3 [[1;2;3];[4;5;6];[7;8;9]]) 2 1 1)
                                    (tabulate [3;3]%nat (fun _ => 0))) =
      ((w', acwe_with_u (acwe_with_u (acwe_init (of_rows3 [[1;2;3];[4;5;6];[7;8;9]]) 2 1 1)
                                     (tabulate [3;3]%nat (fun _ => 0))) r), o, Ok tt) /\
    empty_ls r /\ shape r = [3;3]%nat.
Proof.
  assert (He : empty_ls (tabulate [3;3]%nat (fun _ => 0))).
  { intros x Hx. rewrite at_tabulate by exact Hx. reflexivity. }
  assert (Hn : forall n, In n (shape (tabulate [3;3]%nat (fun _ => 0))) -> (2 <= n)%nat)
    by (intros n [<- | [<- | []]]; lia).
  split; [left; reflexivity|]. split; [exact He|].
  apply (acwe_run_keeps_empty 3 morph0
           (acwe_with_u (acwe_init (of_rows3 [[1;2;3];[4;5;6];[7;8;9]]) 2 1 1)
                        (tabulate [3;3]%nat (fun _ => 0)))
           (tabulate [3;3]%nat (fun _ => 0)));
    [left; reflexivity | reflexivity | reflexivity | left; reflexivity | exact Hn | exact He].
Defined.
